(** * A type-erased callable wrapper with a one-word small buffer

    Shallow embedding of [function.h]: the storage cell [storage_t], the
    per-type dispatch table [type_descriptor] and the wrapper
    [function<R(Args...)>], over an explicit store of storage cells, wrapper
    objects and heap blocks.

    How the C++ is read:
    - Wrappers and cells are objects at addresses. The member functions take
      the addresses ([this], [other], [src], [dst]), so two names for one
      object alias as they do in the program.
    - A table is a record of five functions; a [desc] member is the address
      of a static table, one per type and one for the empty state, and is
      compared by address.
    - A callable type is known by its size, alignment, the four traits the
      program or the language consults, and its call operator. Copying or
      moving an object gives an object of the same value.
    - A call operator runs on its own object: from the value of the object
      and the arguments it returns a result or throws an exception,
      [bad_function_call] or another one, and it may leave the object with
      another value, as a [const] operator that writes a [mutable] member
      does; or the call has no defined behaviour.
    - A member function returns, throws, or has no defined behaviour:
      reading an object where none lives, assigning to an object that was
      never constructed unless the assignment is trivial, running a
      non-trivial destructor where no object lives, releasing what [new]
      did not return, a call of the held object that has none. *)

From stdpp Require Import gmap.

(** ** Addresses *)

(** [loc]: address of a [storage_t] object, which is also the address of the
    wrapper that has it as first member; [addr]: address of a heap block
    returned by [new]; [tyid]: a C++ type, compared by name. *)
Abbreviation loc := nat (only parsing).
Abbreviation addr := nat (only parsing).
Abbreviation tyid := nat (only parsing).

(** A pointer value as the program can obtain one. [wild] is what reading a
    cell that holds no pointer as a pointer gives. *)
Inductive pointer :=
| nullptr
| to_storage (l : loc)
| to_heap (p : addr)
| wild.

#[global] Instance pointer_eq_dec : EqDecision pointer.
Proof. solve_decision. Defined.

(** A pointer to [type_descriptor<R, Args...>]: the address of the static table
    of [get_empty_func_descriptor], or of the one of [get_descriptor<T>],
    one per type [T]. *)
Inductive desc_ptr :=
| get_empty_func_descriptor
| get_descriptor (T : tyid).

#[global] Instance desc_ptr_eq_dec : EqDecision desc_ptr.
Proof. solve_decision. Defined.

(** ** Outcomes *)

(** What is thrown: the [bad_function_call] of function.h:25, or an
    exception of another type, which only a held callable throws. *)
Inductive exception :=
| bad_function_call
| thrown_by_callable (e : nat).

#[global] Instance exception_eq_dec : EqDecision exception.
Proof. solve_decision. Defined.

(** A call returns, throws, or has no defined behaviour. *)
Inductive outcome (S A : Type) :=
| Ret (a : A) (s : S)
| Throw (e : exception) (s : S)
| Undefined.
Arguments Ret {S A} a s.
Arguments Throw {S A} e s.
Arguments Undefined {S A}.

Abbreviation Throw_bad_function_call s := (Throw bad_function_call s).

(** What one call of the call operator of a callable object does: it
    returns [r] or throws [e], and leaves the object with the value [v'];
    or it has no defined behaviour, as a call through a null function
    pointer. *)
Inductive call_result (value R : Type) :=
| Returning (r : R) (v' : value)
| Throwing (e : exception) (v' : value)
| No_defined_call.
Arguments Returning {value R} r v'.
Arguments Throwing {value R} e v'.
Arguments No_defined_call {value R}.

(** ** Types, storage and program state *)

(** What the program uses of a callable type [T]. [value] is the state of
    a callable object (its captures and members); a call takes [Args] and
    returns [R]. *)
Record type_info (value Args R : Type) := {
  sizeof : Z;
  alignof : Z;
  is_nothrow_move_assignable : bool;
  is_nothrow_move_constructible : bool;
  is_trivially_move_assignable : bool;
  is_trivially_destructible : bool;
  call_operator : value → Args → call_result value R
                                        (* R operator()(Args...) const *)
}.
Arguments sizeof {value Args R} _.
Arguments alignof {value Args R} _.
Arguments is_nothrow_move_assignable {value Args R} _.
Arguments is_nothrow_move_constructible {value Args R} _.
Arguments is_trivially_move_assignable {value Args R} _.
Arguments is_trivially_destructible {value Args R} _.
Arguments call_operator {value Args R} _ _ _.

(** What a region of storage holds: nothing the program may read as an
    object, a live object of type [T], or a pointer. *)
Inductive content (value : Type) :=
| Indeterminate
| Obj (T : tyid) (v : value)
| Ptr (q : pointer).
Arguments Indeterminate {value}.
Arguments Obj {value} T v.
Arguments Ptr {value} q.

Record state (value : Type) := {
  cells : gmap loc (content value);  (* the storage_t objects *)
  descs : gmap loc desc_ptr;         (* member desc of the wrapper at an address *)
  heap : gmap addr (content value);  (* the blocks obtained from new *)
  allocs : nat;                      (* calls of operator new *)
  frees : nat                        (* calls of operator delete *)
}.
Arguments cells {value} _.
Arguments descs {value} _.
Arguments heap {value} _.
Arguments allocs {value} _.
Arguments frees {value} _.

(** The program before any object exists. *)
Definition no_objects {value} : state value :=
  {| cells := ∅; descs := ∅; heap := ∅; allocs := 0; frees := 0 |}.

(** ** Sample types

    Seven function objects for the signature [int(int)] on a machine with
    8-byte pointers, their state an integer:
    - 0: one [char] of state, all special members implicit;
    - 1: one [char] of state and a user-provided destructor;
    - 2: three [int] captures (12 bytes);
    - 3: one [int], with a move assignment that may throw;
    - 5: one [mutable char] that counts the calls, which return the count
      before the call plus the argument;
    - 6: two [long] members (16 bytes); a call with argument 0 throws
      [bad_function_call], as a callable does that forwards to an empty
      wrapper, a negative argument gives an exception of its own, and
      another call adds the argument to a [mutable] sum and returns it;
    - 4 and every other number: one pointer-sized member (8 bytes,
      8-aligned), all implicit. *)
Definition sample_types (T : tyid) : type_info Z Z Z :=
  match T with
  | 0 => {| sizeof := 1; alignof := 1;
            is_nothrow_move_assignable := true;
            is_nothrow_move_constructible := true;
            is_trivially_move_assignable := true;
            is_trivially_destructible := true;
            call_operator := fun v a => Returning (v + a)%Z v |}
  | 1 => {| sizeof := 1; alignof := 1;
            is_nothrow_move_assignable := true;
            is_nothrow_move_constructible := true;
            is_trivially_move_assignable := true;
            is_trivially_destructible := false;
            call_operator := fun v a => Returning (v * a)%Z v |}
  | 2 => {| sizeof := 12; alignof := 4;
            is_nothrow_move_assignable := true;
            is_nothrow_move_constructible := true;
            is_trivially_move_assignable := true;
            is_trivially_destructible := true;
            call_operator := fun v a => Returning (v + a)%Z v |}
  | 3 => {| sizeof := 4; alignof := 4;
            is_nothrow_move_assignable := false;
            is_nothrow_move_constructible := true;
            is_trivially_move_assignable := false;
            is_trivially_destructible := true;
            call_operator := fun v a => Returning (v - a)%Z v |}
  | 5 => {| sizeof := 1; alignof := 1;
            is_nothrow_move_assignable := true;
            is_nothrow_move_constructible := true;
            is_trivially_move_assignable := true;
            is_trivially_destructible := true;
            call_operator := fun v a => Returning (v + a)%Z (v + 1)%Z |}
  | 6 => {| sizeof := 16; alignof := 8;
            is_nothrow_move_assignable := true;
            is_nothrow_move_constructible := true;
            is_trivially_move_assignable := true;
            is_trivially_destructible := true;
            call_operator := fun v a =>
              if (a =? 0)%Z then Throwing bad_function_call v
              else if (a <? 0)%Z then Throwing (thrown_by_callable 1) v
              else Returning (v + a)%Z (v + a)%Z |}
  | _ => {| sizeof := 8; alignof := 8;
            is_nothrow_move_assignable := true;
            is_nothrow_move_constructible := true;
            is_trivially_move_assignable := true;
            is_trivially_destructible := true;
            call_operator := fun v a => Returning (2 * v + a)%Z v |}
  end.

(** The states in which the only object is a wrapper at address 1, bound
    to sample type 0 with state 5, to sample type 1 with state 7, and to
    sample type 2 with state 10 in the block at address 0. *)
Definition one_plain : state Z :=
  {| cells := {[1 := Obj 0 5%Z]}; descs := {[1 := get_descriptor 0]};
     heap := ∅; allocs := 0; frees := 0 |}.

Definition one_guarded : state Z :=
  {| cells := {[1 := Obj 1 7%Z]}; descs := {[1 := get_descriptor 1]};
     heap := ∅; allocs := 0; frees := 0 |}.

Definition one_boxed : state Z :=
  {| cells := {[1 := Ptr (to_heap 0)]}; descs := {[1 := get_descriptor 2]};
     heap := {[0 := Obj 2 10%Z]}; allocs := 1; frees := 0 |}.

(** The states in which the only object is an empty wrapper at address 1,
    and in which there are two wrappers, at address 1 bound to sample type 2
    with state 10 in the block at address 0, and at address 2 bound to
    sample type 0 with state 5. *)
Definition one_empty : state Z :=
  {| cells := {[1 := Indeterminate]};
     descs := {[1 := get_empty_func_descriptor]};
     heap := ∅; allocs := 0; frees := 0 |}.

Definition two_wrappers : state Z :=
  {| cells := {[1 := Ptr (to_heap 0); 2 := Obj 0 5%Z]};
     descs := {[1 := get_descriptor 2; 2 := get_descriptor 0]};
     heap := {[0 := Obj 2 10%Z]}; allocs := 1; frees := 0 |}.

(** The state in which there are two wrappers, at address 1 bound to
    sample type 1, which has a destructor, with state 7 in the cell, and at
    address 2 bound to sample type 2 with state 10 in the block at
    address 0. *)
Definition guarded_and_boxed : state Z :=
  {| cells := {[1 := Obj 1 7%Z; 2 := Ptr (to_heap 0)]};
     descs := {[1 := get_descriptor 1; 2 := get_descriptor 2]};
     heap := {[0 := Obj 2 10%Z]}; allocs := 1; frees := 0 |}.


Section function.

Context {value Args R : Type}.

(** Size and alignment of a pointer, and the types of the program. *)
Variable sizeof_ptr alignof_ptr : Z.
Variable types : tyid → type_info value Args R.

Abbreviation content := (content value).
Abbreviation state := (state value).

Definition upd_cells (f : gmap loc content → gmap loc content) (s : state) :=
  {| cells := f (cells s); descs := descs s; heap := heap s;
     allocs := allocs s; frees := frees s |}.
Definition upd_descs (f : gmap loc desc_ptr → gmap loc desc_ptr) (s : state) :=
  {| cells := cells s; descs := f (descs s); heap := heap s;
     allocs := allocs s; frees := frees s |}.

Definition upd_heap (f : gmap addr content → gmap addr content) (s : state) :=
  {| cells := cells s; descs := descs s; heap := f (heap s);
     allocs := allocs s; frees := frees s |}.
Definition count_alloc (s : state) :=
  {| cells := cells s; descs := descs s; heap := heap s;
     allocs := S (allocs s); frees := frees s |}.
Definition count_free (s : state) :=
  {| cells := cells s; descs := descs s; heap := heap s;
     allocs := allocs s; frees := S (frees s) |}.

(** ** The monad of the member functions *)

Definition M (A : Type) := state → outcome state A.

Definition ret {A} (a : A) : M A := fun s => Ret a s.
Definition bind {A B} (m : M A) (k : A → M B) : M B :=
  fun s => match m s with
           | Ret a s' => k a s'
           | Throw e s' => Throw e s'
           | Undefined => Undefined
           end.
Definition throw {A} (e : exception) : M A := fun s => Throw e s.
Definition throw_bad_function_call {A} : M A := throw bad_function_call.
Definition gets {A} (f : state → A) : M A := fun s => Ret (f s) s.
Definition modify (f : state → state) : M unit := fun s => Ret () (f s).

Notation "'let*' x ':=' m 'in' k" := (bind m (fun x => k))
  (at level 10, x name, m at level 100, k at level 200, only parsing).
Notation "m '>>' k" := (bind m (fun _ => k))
  (at level 100, k at level 200, right associativity, only parsing).

(** ** Objects in storage *)

(** The storage a pointer refers to, and what it holds. *)
Definition deref (q : pointer) (s : state) : option content :=
  match q with
  | to_storage l => cells s !! l
  | to_heap p => heap s !! p
  | nullptr | wild => None
  end.

Definition put (q : pointer) (c : content) (s : state) : state :=
  match q with
  | to_storage l => upd_cells <[l := c]> s
  | to_heap p => upd_heap <[p := c]> s
  | nullptr | wild => s
  end.

(** The value of the live [T] object at [q], if there is one. *)
Definition live_at (T : tyid) (q : pointer) (s : state) : option value :=
  match deref q s with
  | Some (Obj T' v) => if decide (T' = T) then Some v else None
  | _ => None
  end.

(** A [storage_t] variable comes into scope, uninitialised, and leaves it. *)
Definition declare_storage (l : loc) : M unit :=
  modify (upd_cells <[l := Indeterminate]>).
Definition release_storage (l : loc) : M unit :=
  modify (upd_cells (delete l)).

(** An address no [storage_t] in scope has, for a temporary. *)
Definition fresh_loc : M loc := gets (fun s => fresh (dom (cells s))).

(** Reading and assigning a whole [storage_t] (its bytes). *)
Definition load (l : loc) : M content :=
  fun s => match cells s !! l with Some c => Ret c s | None => Undefined end.
Definition store (l : loc) (c : content) : M unit :=
  fun s => match cells s !! l with
           | Some _ => Ret () (upd_cells <[l := c]> s)
           | None => Undefined
           end.

(** [ptr_from_storage<T>(storage)] (function.h:8-16): the cell read as a
    pointer. *)
Definition ptr_from_storage (storage : loc) : M pointer :=
  let* c := load storage in
  ret (match c with Ptr q => q | _ => wild end).

(** Reading the object a [T&] refers to. *)
Definition object_at (T : tyid) (q : pointer) : M value :=
  fun s => match live_at T q s with Some v => Ret v s | None => Undefined end.

(** [new (q) T(v)]: an object is constructed in existing storage. Copy and
    move construction give the new object the value of the old one. *)
Definition construct_at (T : tyid) (q : pointer) (v : value) : M unit :=
  fun s => match deref q s with
           | Some _ => Ret () (put q (Obj T v) s)
           | None => Undefined
           end.

(** [d = std::move(s)] for the [T&] at [qd] and [qs]: the move assignment
    operator of [T] runs on the object at [qd]. Where no [T] object lives at [qd], only a
    trivial operator (a copy of the bytes) has a defined effect. The source
    object keeps its value. *)
Definition move_assign (T : tyid) (qd qs : pointer) : M unit :=
  let* v := object_at T qs in
  fun s => match deref qd s with
           | Some _ =>
               if bool_decide (is_Some (live_at T qd s))
                  || is_trivially_move_assignable (types T)
               then Ret () (put qd (Obj T v) s)
               else Undefined
           | None => Undefined
           end.

(** [q->~T()]: the destructor of [T] runs on the object at [q] and ends its
    lifetime. Where no [T] object lives at [q], only a trivial destructor,
    which runs no code, has a defined effect: none. *)
Definition destruct_at (T : tyid) (q : pointer) : M unit :=
  fun s => match live_at T q s with
           | Some _ => Ret () (put q Indeterminate s)
           | None => if is_trivially_destructible (types T) then Ret () s
                     else Undefined
           end.

(** [new T(v)]: one block is allocated and a [T] constructed in it. *)
Definition new_ (T : tyid) (v : value) : M pointer :=
  fun s => let p := fresh (dom (heap s)) in
           Ret (to_heap p) (count_alloc (upd_heap <[p := Obj T v]> s)).

(** [delete q] at type [T]: nothing for a null pointer; else the [T] object
    at [q], which must be a live block from [new], is destroyed and its
    block released. *)
Definition delete_ (T : tyid) (q : pointer) : M unit :=
  fun s => match q with
           | nullptr => Ret () s
           | to_heap p =>
               match live_at T q s with
               | Some _ => Ret () (count_free (upd_heap (delete p) s))
               | None => Undefined
               end
           | to_storage _ | wild => Undefined
           end.

(** The cell, as a pointer variable, is assigned [q]. *)
Definition store_ptr (storage : loc) (q : pointer) : M unit :=
  store storage (Ptr q).

(** [obj(args...)] for the [T const&] at [q]: the call operator of [T] runs
    on the object at [q]. *)
Definition call_at (T : tyid) (q : pointer) (args : Args) : M R :=
  let* v := object_at T q in
  match call_operator (types T) v args with
  | Returning r v' => modify (put q (Obj T v')) >> ret r
  | Throwing e v' => modify (put q (Obj T v')) >> throw e
  | No_defined_call => fun _ => Undefined
  end.

(** ** [fits_small] (function.h:18-23) *)

Definition fits_small (T : tyid) : bool :=
  bool_decide (sizeof (types T) < sizeof_ptr)%Z
  && bool_decide (alignof (types T) < alignof_ptr)%Z
  && is_nothrow_move_assignable (types T)
  && is_nothrow_move_constructible (types T).

(** ** [type_descriptor] (function.h:27-93) *)

Record type_descriptor := {
  copy : loc → loc → M unit;        (* copy(src, dst) *)
  move : loc → loc → M unit;        (* move(src, dst) *)
  destroy : loc → M unit;
  get : loc → M pointer;
  invoke : loc → Args → M R
}.

(** The static [result] of [get_empty_func_descriptor] (function.h:35-45). *)
Definition empty_func_descriptor : type_descriptor := {|
  copy := fun src dst => ret ();
  move := fun src dst => ret ();
  destroy := fun src => ret ();
  get := fun src => ret nullptr;
  invoke := fun src args => throw_bad_function_call
|}.

(** The static [result] of [get_descriptor<T>] (function.h:47-92); each
    lambda branches on [fits_small<T>()], the inline branch first. *)
Definition descriptor (T : tyid) : type_descriptor := {|
  copy := fun src dst =>
    if fits_small T then
      let* v := object_at T (to_storage src) in
      construct_at T (to_storage dst) v
    else
      let* q := ptr_from_storage src in
      let* v := object_at T q in
      let* p := new_ T v in
      store_ptr dst p;
  move := fun src dst =>
    if fits_small T then
      move_assign T (to_storage dst) (to_storage src) >>
      let* q := ptr_from_storage src in
      destruct_at T q
    else
      let* c := load src in
      store dst c;
  destroy := fun src =>
    if fits_small T then
      destruct_at T (to_storage src)
    else
      let* q := ptr_from_storage src in
      delete_ T q;
  get := fun src =>
    if fits_small T then ret (to_storage src)
    else ptr_from_storage src;
  invoke := fun src args =>
    if fits_small T then
      call_at T (to_storage src) args
    else
      let* q := ptr_from_storage src in
      call_at T q args
|}.

(** The table a descriptor pointer points to. *)
Definition pointee (d : desc_ptr) : type_descriptor :=
  match d with
  | get_empty_func_descriptor => empty_func_descriptor
  | get_descriptor T => descriptor T
  end.

(** ** [function<R(Args...)>] (function.h:98-186)

    The wrapper at address [this] has its member [storage] in
    [cells] and its member [desc] in [descs], both at [this]. *)

Definition get_desc (this : loc) : M desc_ptr :=
  fun s => match descs s !! this with Some d => Ret d s | None => Undefined end.
Definition set_desc (this : loc) (d : desc_ptr) : M unit :=
  modify (upd_descs <[this := d]>).

(** The end of the lifetime of the wrapper object itself. *)
Definition end_object (this : loc) : M unit :=
  modify (upd_descs (delete this)) >> release_storage this.

(** [function() noexcept] (function.h:100-101) *)
Definition function_default (this : loc) : M unit :=
  declare_storage this >>
  set_desc this get_empty_func_descriptor.

(** [function(function const& other)] (function.h:103-105) *)
Definition function_copy (this other : loc) : M unit :=
  declare_storage this >>
  let* d := get_desc other in
  set_desc this d >>
  copy (pointee d) other this.

(** [function(function&& other) noexcept] (function.h:106-110) *)
Definition function_move (this other : loc) : M unit :=
  declare_storage this >>
  let* d := get_desc other in
  set_desc this d >>
  move (pointee d) other this >>
  set_desc other get_empty_func_descriptor.

(** [template <typename T> function(T val)] (function.h:112-120) *)
Definition function_from (this : loc) (T : tyid) (val : value) : M unit :=
  declare_storage this >>
  set_desc this (get_descriptor T) >>
  if fits_small T then
    construct_at T (to_storage this) val
  else
    let* p := new_ T val in
    store_ptr this p.

(** [~function()] (function.h:137-139), then the object is gone. *)
Definition function_destroy (this : loc) : M unit :=
  let* d := get_desc this in
  destroy (pointee d) this >>
  end_object this.

(** [explicit operator bool() const noexcept] (function.h:141-143) *)
Definition operator_bool (this : loc) : M bool :=
  let* d := get_desc this in
  ret (bool_decide (d ≠ get_empty_func_descriptor)).

(** [R operator()(Args... args) const] (function.h:145-147) *)
Definition operator_call (this : loc) (args : Args) : M R :=
  let* d := get_desc this in
  invoke (pointee d) this args.

(** [template <typename T> T* target() noexcept] and its const overload
    (function.h:149-163) *)
Definition target (T : tyid) (this : loc) : M pointer :=
  let* d := get_desc this in
  if bool_decide (d ≠ get_descriptor T) then ret nullptr
  else get (pointee d) this.

(** [void swap(function& other)] (function.h:165-181); [swap(desc,
    other.desc)] is [std::swap] on the two pointers. *)
Definition swap (this other : loc) : M unit :=
  let* tmp := fresh_loc in
  declare_storage tmp >>
  (let* od := get_desc other in move (pointee od) other tmp) >>
  (let* d := get_desc this in move (pointee d) this other) >>
  (let* od := get_desc other in move (pointee od) tmp this) >>
  (let* d := get_desc this in
   let* od := get_desc other in
   set_desc this od >>
   set_desc other d) >>
  release_storage tmp.

(** [function& operator=(function const& rhs)] (function.h:122-127); the
    temporary [function(rhs)] is destroyed at the end of the statement. *)
Definition assign_copy (this rhs : loc) : M unit :=
  if bool_decide (this ≠ rhs) then
    let* t := fresh_loc in
    function_copy t rhs >>
    swap t this >>
    function_destroy t
  else ret ().

(** [function& operator=(function&& rhs) noexcept] (function.h:129-135) *)
Definition assign_move (this rhs : loc) : M unit :=
  if bool_decide (this ≠ rhs) then
    swap this rhs >>
    let* t := fresh_loc in
    function_default t >>
    swap t rhs >>
    function_destroy t
  else ret ().

(** ** Clients *)

(** What a client does with the non-const pointer [target] gave it: it
    assigns the object a new value. *)
Definition write_object (T : tyid) (q : pointer) (v : value) : M unit :=
  fun s => match live_at T q s with
           | Some _ => Ret () (put q (Obj T v) s)
           | None => Undefined
           end.

(** The statements of a client on wrappers it names by address. *)
Inductive op :=
| Bind (w : loc) (T : tyid) (val : value)   (* function w(val); *)
| Default (w : loc)                         (* function w; *)
| Copy (w other : loc)                      (* function w(other); *)
| Move (w other : loc)                      (* function w(std::move(other)); *)
| Assign (w rhs : loc)                      (* w = rhs; *)
| AssignMove (w rhs : loc)                  (* w = std::move(rhs); *)
| Swap (w other : loc)                      (* w.swap(other); *)
| Destroy (w : loc).                        (* w leaves its scope *)

(** The addresses of the wrappers a statement names. *)
Definition names (o : op) : list loc :=
  match o with
  | Bind w _ _ | Default w | Destroy w => [w]
  | Copy w x | Move w x | Assign w x | AssignMove w x | Swap w x => [w; x]
  end.

Definition exec (o : op) : M unit :=
  match o with
  | Bind w T val => function_from w T val
  | Default w => function_default w
  | Copy w other => function_copy w other
  | Move w other => function_move w other
  | Assign w rhs => assign_copy w rhs
  | AssignMove w rhs => assign_move w rhs
  | Swap w other => swap w other
  | Destroy w => function_destroy w
  end.

Fixpoint run (ops : list op) : M unit :=
  match ops with
  | [] => ret ()
  | o :: ops => exec o >> run ops
  end.

(** The wrappers in scope after a statement, and the statements a compiler
    accepts: a declared wrapper has a new address, a named one is in
    scope. [storable] restricts the types that are bound. *)
Definition live_after (o : op) (live : gset loc) : gset loc :=
  match o with
  | Bind w _ _ | Default w | Copy w _ | Move w _ => {[w]} ∪ live
  | Destroy w => live ∖ {[w]}
  | Assign _ _ | AssignMove _ _ | Swap _ _ => live
  end.

Definition in_scope (storable : tyid → Prop) (live : gset loc) (o : op) : Prop :=
  match o with
  | Bind w T _ => (w ∉ live) ∧ storable T
  | Default w => w ∉ live
  | Copy w other | Move w other => (w ∉ live) ∧ other ∈ live
  | Assign w rhs | AssignMove w rhs | Swap w rhs => w ∈ live ∧ rhs ∈ live
  | Destroy w => w ∈ live
  end.

Fixpoint scoped (storable : tyid → Prop) (live : gset loc) (ops : list op) : Prop :=
  match ops with
  | [] => True
  | o :: ops => in_scope storable live o ∧ scoped storable (live_after o live) ops
  end.

(** ** Well-formed states *)

(** The result of a call without the state. *)
Inductive answer (A : Type) :=
| Returns (a : A)
| Throws (e : exception)
| No_behaviour.
Arguments Returns {A} a.
Arguments Throws {A} e.
Arguments No_behaviour {A}.

Definition answer_of {A} (o : outcome state A) : answer A :=
  match o with
  | Ret a _ => Returns a
  | Throw e _ => Throws e
  | Undefined => No_behaviour
  end.

(** The result of a call of a call operator without the value it leaves
    the object with. *)
Definition result_of (c : call_result value R) : answer R :=
  match c with
  | Returning r _ => Returns r
  | Throwing e _ => Throws e
  | No_defined_call => No_behaviour
  end.

(** The cell at [l] holds what the table behind [d] expects there. *)
Definition holds (s : state) (l : loc) (d : desc_ptr) : Prop :=
  match d with
  | get_empty_func_descriptor => is_Some (cells s !! l)
  | get_descriptor T =>
      if fits_small T then ∃ v, cells s !! l = Some (Obj T v)
      else ∃ p v, cells s !! l = Some (Ptr (to_heap p))
                  ∧ heap s !! p = Some (Obj T v)
  end.

(** The type and value of the object the wrapper members [l], [d] hold. *)
Definition payload (s : state) (l : loc) (d : desc_ptr) : option (tyid * value) :=
  match d with
  | get_empty_func_descriptor => None
  | get_descriptor T =>
      if fits_small T then
        match live_at T (to_storage l) s with
        | Some v => Some (T, v)
        | None => None
        end
      else
        match cells s !! l with
        | Some (Ptr q) =>
            match live_at T q s with
            | Some v => Some (T, v)
            | None => None
            end
        | _ => None
        end
  end.

(** The state in which the cell at [l] has been given the bytes [c] by the
    table behind [d]: the empty table writes nothing. *)
Definition relocate (d : desc_ptr) (l : loc) (c : content) (s : state) : state :=
  match d with
  | get_empty_func_descriptor => s
  | get_descriptor _ => upd_cells <[l := c]> s
  end.

(** The state in which the cell at [l] has been given an object of its
    own: in the cell, or in a new block the cell points to. *)
Definition install (l : loc) (pl : option (tyid * value)) (s : state) : state :=
  match pl with
  | None => s
  | Some (T, v) =>
      if fits_small T then upd_cells <[l := Obj T v]> s
      else
        upd_cells <[l := Ptr (to_heap (fresh (dom (heap s))))]>
          (count_alloc (upd_heap <[fresh (dom (heap s)) := Obj T v]> s))
  end.

(** The state in which the object of the wrapper members [l], [d] is gone:
    only a boxed one leaves a trace outside the cell. *)
Definition discard (d : desc_ptr) (l : loc) (s : state) : state :=
  match d with
  | get_empty_func_descriptor => s
  | get_descriptor T =>
      if fits_small T then upd_cells <[l := Indeterminate]> s
      else
        match cells s !! l with
        | Some (Ptr (to_heap p)) => count_free (upd_heap (delete p) s)
        | _ => s
        end
  end.

(** The state after [swap] of two wrappers with members [da], [ca] and
    [db], [cb]: each cell is given the bytes of the other by the table of
    the other, and the tables are exchanged. *)
Definition swapped (this other : loc) (da db : desc_ptr) (ca cb : content)
    (s : state) : state :=
  upd_descs (fun m => <[other := da]> (<[this := db]> m))
    (relocate db this cb (relocate da other ca s)).

(** The two wrappers of a [swap] seen from the other side. *)
Definition exchange (this other w : loc) : loc :=
  if decide (w = this) then other
  else if decide (w = other) then this
  else w.

(** Blocks the table behind [d] has per wrapper: one when boxed. *)
Definition blocks (d : desc_ptr) : nat :=
  match d with
  | get_empty_func_descriptor => 0
  | get_descriptor T => if fits_small T then 0 else 1
  end.

(** Moving the bytes of a [T] and running no destructor is a move of the
    object. *)
Definition relocatable (T : tyid) : Prop :=
  is_trivially_move_assignable (types T) = true
  ∧ is_trivially_destructible (types T) = true.

(** A type whose objects the wrapper stores boxed, or inline and
    relocatable. *)
Definition storable (T : tyid) : Prop :=
  fits_small T = true → relocatable T.

(** The wrapper at [w] owns the heap block at [p]. *)
Definition owns (s : state) (w : loc) (p : addr) : Prop :=
  ∃ T, descs s !! w = Some (get_descriptor T)
       ∧ fits_small T = false
       ∧ cells s !! w = Some (Ptr (to_heap p)).

Definition storable_desc (d : desc_ptr) : Prop :=
  match d with
  | get_empty_func_descriptor => True
  | get_descriptor T => storable T
  end.

Record wf (s : state) : Prop := {
  wf_dom : dom (cells s) = dom (descs s);
  wf_holds w d : descs s !! w = Some d → holds s w d;
  wf_storable w T : descs s !! w = Some (get_descriptor T) → storable T;
  wf_unique w1 w2 p : owns s w1 p → owns s w2 p → w1 = w2;
  wf_owned p : is_Some (heap s !! p) → ∃ w, owns s w p;
  wf_count : allocs s = frees s + size (heap s)
}.

(** A state that is well-formed but for the wrappers at the addresses in
    [B], which may hold objects of any type. *)
Record wf_but (B : gset loc) (s : state) : Prop := {
  wfb_dom : dom (cells s) = dom (descs s);
  wfb_holds w d : descs s !! w = Some d → holds s w d;
  wfb_storable w T :
    w ∉ B → descs s !! w = Some (get_descriptor T) → storable T;
  wfb_unique w1 w2 p : owns s w1 p → owns s w2 p → w1 = w2;
  wfb_owned p : is_Some (heap s !! p) → ∃ w, owns s w p;
  wfb_count : allocs s = frees s + size (heap s)
}.

(** No statement of [ops] names a wrapper at an address in [B]. *)
Definition apart (B : gset loc) (ops : list op) : Prop :=
  Forall (fun o => Forall (fun w => w ∉ B) (names o)) ops.

(** * Properties *)

(** ** Running the monad *)


Lemma bind_Ret {A B} (m : M A) (k : A → M B) s a s1 :
  m s = Ret a s1 → bind m k s = k a s1.
Proof. unfold bind. by intros ->. Qed.

(** One more statement of a sequence has run. *)
Tactic Notation "step" tactic3(tac) := erewrite bind_Ret; [|solve [tac]].

Lemma bind_Undefined {A B} (m : M A) (k : A → M B) s :
  m s = Undefined → bind m k s = Undefined.
Proof. unfold bind. by intros ->. Qed.

Lemma get_desc_Some this d s :
  descs s !! this = Some d → get_desc this s = Ret d s.
Proof. unfold get_desc. by intros ->. Qed.

Lemma load_Some l c s : cells s !! l = Some c → load l s = Ret c s.
Proof. unfold load. by intros ->. Qed.

Lemma store_Some l c c0 s :
  cells s !! l = Some c0 → store l c s = Ret () (upd_cells <[l := c]> s).
Proof. unfold store. by intros ->. Qed.

Lemma ptr_from_storage_Some l c s :
  cells s !! l = Some c →
  ptr_from_storage l s = Ret (match c with Ptr q => q | _ => wild end) s.
Proof. intros H. unfold ptr_from_storage. by rewrite (bind_Ret _ _ _ _ _ (load_Some _ _ _ H)). Qed.

Lemma object_at_Some T q v s :
  live_at T q s = Some v → object_at T q s = Ret v s.
Proof. unfold object_at. by intros ->. Qed.

Lemma live_at_storage T l v s :
  cells s !! l = Some (Obj T v) → live_at T (to_storage l) s = Some v.
Proof. unfold live_at. simpl. intros ->. by rewrite decide_True. Qed.

Lemma live_at_heap T p v s :
  heap s !! p = Some (Obj T v) → live_at T (to_heap p) s = Some v.
Proof. unfold live_at. simpl. intros ->. by rewrite decide_True. Qed.

Lemma live_at_wild T s : live_at T wild s = None.
Proof. done. Qed.

(** The member [desc] of the source of a move construction afterwards. *)
Lemma function_move_source this other s s' :
  function_move this other s = Ret () s' →
  descs s' !! other = Some get_empty_func_descriptor.
Proof.
  unfold function_move, bind, declare_storage, set_desc, modify, get_desc.
  simpl. destruct (descs s !! other) as [d|]; [|done].
  destruct (move _ _ _ _) as [[] s1| |]; try done.
  intros [= <-]. apply lookup_insert_eq.
Qed.

(** ** Self-assignment *)

(** C7. Both assignment operators compare [this] with the address of their
    argument and do nothing when they are equal: the program state after
    [w = w] is the state before, so [w] holds and invokes what it did. *)
Theorem self_assignment_is_noop (w : loc) (s : state) :
  assign_copy w w s = Ret () s
  ∧ assign_move w w s = Ret () s
  ∧ ∀ args,
      (assign_copy w w >> operator_call w args) s = operator_call w args s
      ∧ (assign_move w w >> operator_call w args) s = operator_call w args s.
Proof.
  assert (Hc : assign_copy w w s = Ret () s).
  { unfold assign_copy. by rewrite bool_decide_false by (intros H; by apply H). }
  assert (Hm : assign_move w w s = Ret () s).
  { unfold assign_move. by rewrite bool_decide_false by (intros H; by apply H). }
  split; [done|]. split; [done|].
  intros args. by rewrite (bind_Ret _ _ _ _ _ Hc), (bind_Ret _ _ _ _ _ Hm).
Qed.

(** ** Inline or boxed *)

Lemma fits_small_spec (T : tyid) :
  fits_small T = true ↔
  (sizeof (types T) < sizeof_ptr)%Z
  ∧ (alignof (types T) < alignof_ptr)%Z
  ∧ is_nothrow_move_assignable (types T) = true
  ∧ is_nothrow_move_constructible (types T) = true.
Proof.
  unfold fits_small. rewrite !andb_true_iff, !bool_decide_eq_true. tauto.
Qed.

Lemma function_from_small this T val s :
  fits_small T = true →
  function_from this T val s =
    Ret () (upd_cells <[this := Obj T val]>
              (upd_descs <[this := get_descriptor T]>
                 (upd_cells <[this := Indeterminate]> s))).
Proof.
  intros Hs. unfold function_from, bind, declare_storage, set_desc, modify.
  rewrite Hs. unfold construct_at. simpl. by rewrite lookup_insert_eq.
Qed.

Lemma function_from_boxed this T val s :
  fits_small T = false →
  function_from this T val s =
    Ret () (upd_cells <[this := Ptr (to_heap (fresh (dom (heap s))))]>
              (count_alloc
                 (upd_heap <[fresh (dom (heap s)) := Obj T val]>
                    (upd_descs <[this := get_descriptor T]>
                       (upd_cells <[this := Indeterminate]> s))))).
Proof.
  intros Hs. unfold function_from, bind, declare_storage, set_desc, modify.
  rewrite Hs. unfold new_, store_ptr, store. simpl.
  by rewrite lookup_insert_eq.
Qed.

Lemma fresh_heap_None (s : state) : heap s !! fresh (dom (heap s)) = None.
Proof. apply not_elem_of_dom, is_fresh. Qed.

(** C3. [fits_small<T>] is the conjunction of the four conditions on [T].
    Constructing a wrapper from a [T], in whatever state, puts the object in
    the cell itself exactly when [fits_small<T>] holds, with no allocation;
    otherwise it allocates one block for the object and puts the pointer to
    it in the cell. *)
Theorem construct_inline_iff_fits_small (T : tyid) :
  (fits_small T = true ↔
     (sizeof (types T) < sizeof_ptr)%Z
     ∧ (alignof (types T) < alignof_ptr)%Z
     ∧ is_nothrow_move_assignable (types T) = true
     ∧ is_nothrow_move_constructible (types T) = true)
  ∧ ∀ this val s, ∃ s',
      function_from this T val s = Ret () s'
      ∧ descs s' !! this = Some (get_descriptor T)
      ∧ (cells s' !! this = Some (Obj T val) ↔ fits_small T = true)
      ∧ (fits_small T = true →
           heap s' = heap s ∧ allocs s' = allocs s ∧ frees s' = frees s)
      ∧ (fits_small T = false →
           ∃ p, heap s !! p = None
                ∧ cells s' !! this = Some (Ptr (to_heap p))
                ∧ heap s' = <[p := Obj T val]> (heap s)
                ∧ allocs s' = S (allocs s) ∧ frees s' = frees s).
Proof.
  split; [apply fits_small_spec|].
  intros this val s. destruct (fits_small T) eqn:Hs.
  - eexists. split; [by apply function_from_small|]. simpl.
    rewrite !lookup_insert_eq. by repeat split.
  - eexists. split; [by apply function_from_boxed|]. simpl.
    rewrite !lookup_insert_eq. split; [done|]. split; [by split|].
    split; [done|]. intros _. exists (fresh (dom (heap s))).
    split; [apply fresh_heap_None|]. done.
Qed.

(** ** [target] *)

Lemma target_other_type T this d s :
  descs s !! this = Some d → d ≠ get_descriptor T →
  target T this s = Ret nullptr s.
Proof.
  intros Hd Hne. unfold target.
  rewrite (bind_Ret _ _ _ _ _ (get_desc_Some _ _ _ Hd)).
  by rewrite bool_decide_true.
Qed.

Lemma target_same_type T this c s :
  descs s !! this = Some (get_descriptor T) → cells s !! this = Some c →
  target T this s =
    Ret (if fits_small T then to_storage this
         else match c with Ptr q => q | _ => wild end) s.
Proof.
  intros Hd Hc. unfold target.
  rewrite (bind_Ret _ _ _ _ _ (get_desc_Some _ _ _ Hd)).
  rewrite bool_decide_false by (intros H; by apply H). simpl.
  destruct (fits_small T); [done|]. by apply ptr_from_storage_Some.
Qed.

(** C5. On a wrapper whose cell holds what its table expects, [target<T>]
    returns a non-null pointer exactly when [desc] is the table of [T], and
    the pointer is then to the live [T] held; it returns the same pointer in
    every state in which the two members of the wrapper are the same. For a
    wrapper just bound to a [T] value the pointer is to an object of that
    value, and [target<U>] is null for every other [U]. *)
Theorem target_exact_type (T : tyid) (this : loc) :
  (∀ d s,
     descs s !! this = Some d → holds s this d →
     ∃ q, target T this s = Ret q s
          ∧ (q ≠ nullptr ↔ d = get_descriptor T)
          ∧ (d = get_descriptor T → is_Some (live_at T q s))
          ∧ (∀ s2, descs s2 !! this = descs s !! this →
                   cells s2 !! this = cells s !! this →
                   target T this s2 = Ret q s2))
  ∧ (∀ val s, ∃ s1 q,
       function_from this T val s = Ret () s1
       ∧ target T this s1 = Ret q s1
       ∧ q ≠ nullptr
       ∧ live_at T q s1 = Some val
       ∧ (∀ U, U ≠ T → target U this s1 = Ret nullptr s1)).
Proof.
  split.
  - intros d s Hd Hh. destruct (decide (d = get_descriptor T)) as [->|Hne].
    + simpl in Hh. destruct (fits_small T) eqn:Hs.
      * destruct Hh as [v Hc]. exists (to_storage this).
        split; [by rewrite (target_same_type _ _ _ _ Hd Hc), Hs|].
        split; [done|]. split.
        { intros _. exists v. by apply live_at_storage. }
        intros s2 Hd2 Hc2. rewrite Hd in Hd2. rewrite Hc in Hc2.
        by rewrite (target_same_type _ _ _ _ Hd2 Hc2), Hs.
      * destruct Hh as (p & v & Hc & Hp). exists (to_heap p).
        split; [by rewrite (target_same_type _ _ _ _ Hd Hc), Hs|].
        split; [done|]. split.
        { intros _. exists v. by apply live_at_heap. }
        intros s2 Hd2 Hc2. rewrite Hd in Hd2. rewrite Hc in Hc2.
        by rewrite (target_same_type _ _ _ _ Hd2 Hc2), Hs.
    + exists nullptr. split; [by eapply target_other_type|].
      split; [done|]. split; [done|].
      intros s2 Hd2 _. rewrite Hd in Hd2. by eapply target_other_type.
  - intros val s. destruct (fits_small T) eqn:Hs.
    + eexists _, (to_storage this).
      split; [by apply function_from_small|].
      split.
      { erewrite target_same_type; [by rewrite Hs| |]; simpl;
          apply lookup_insert_eq. }
      split; [done|]. split.
      { apply live_at_storage. simpl. apply lookup_insert_eq. }
      intros U HU. eapply target_other_type; [simpl; apply lookup_insert_eq|].
      congruence.
    + eexists _, (to_heap (fresh (dom (heap s)))).
      split; [by apply function_from_boxed|].
      split.
      { rewrite (target_same_type _ _ (Ptr (to_heap (fresh (dom (heap s))))));
          [by rewrite Hs| |]; simpl; apply lookup_insert_eq. }
      split; [done|]. split.
      { apply live_at_heap. simpl. apply lookup_insert_eq. }
      intros U HU. eapply target_other_type; [simpl; apply lookup_insert_eq|].
      congruence.
Qed.

(** ** The operations of a table on cells that hold what it expects *)

Lemma holds_agree s s' l d :
  cells s' !! l = cells s !! l → heap s' = heap s →
  holds s l d → holds s' l d.
Proof.
  intros Hc Hh. destruct d as [|T]; simpl; rewrite Hc; [done|].
  by rewrite Hh.
Qed.

Lemma payload_agree s s' l l' d :
  holds s l d →
  cells s' !! l' = cells s !! l → heap s' = heap s →
  payload s' l' d = payload s l d.
Proof.
  intros Hh Hc Hp. destruct d as [|T]; [done|]. simpl in *.
  destruct (fits_small T); unfold live_at; simpl; rewrite Hc; [done|].
  destruct Hh as (p & v & -> & _). simpl. by rewrite Hp.
Qed.

Lemma holds_payload s l d :
  holds s l d →
  match d with
  | get_empty_func_descriptor => payload s l d = None
  | get_descriptor T => ∃ v, payload s l d = Some (T, v)
  end.
Proof.
  destruct d as [|T]; [done|]. simpl. destruct (fits_small T).
  - intros [v Hc]. exists v. by rewrite (live_at_storage _ _ _ _ Hc).
  - intros (p & v & Hc & Hp). exists v.
    by rewrite Hc, (live_at_heap _ _ _ _ Hp).
Qed.

(** What a call of the object at [q] does. *)
Lemma call_at_spec T q args s :
  call_at T q args s =
    match live_at T q s with
    | Some v =>
        match call_operator (types T) v args with
        | Returning r v' => Ret r (put q (Obj T v') s)
        | Throwing e v' => Throw e (put q (Obj T v') s)
        | No_defined_call => Undefined
        end
    | None => Undefined
    end.
Proof.
  unfold call_at, bind, object_at. destruct (live_at T q s); [|done].
  by destruct (call_operator _ _ _).
Qed.

Lemma call_at_answer T q args s :
  answer_of (call_at T q args s) =
    match live_at T q s with
    | Some v => result_of (call_operator (types T) v args)
    | None => No_behaviour
    end.
Proof.
  rewrite call_at_spec. destruct (live_at T q s); [|done].
  by destruct (call_operator _ _ _).
Qed.

(** What [invoke] answers, in every state. *)
Lemma invoke_answer d l args s :
  answer_of (invoke (pointee d) l args s) =
    match d with
    | get_empty_func_descriptor => Throws bad_function_call
    | get_descriptor T =>
        match payload s l d with
        | Some (_, v) => result_of (call_operator (types T) v args)
        | None => No_behaviour
        end
    end.
Proof.
  destruct d as [|T]; [done|]. simpl. destruct (fits_small T).
  - rewrite call_at_answer. by destruct (live_at T (to_storage l) s).
  - unfold ptr_from_storage, bind at 1, bind at 1, load, ret.
    destruct (cells s !! l) as [[| |q]|]; try done;
      rewrite call_at_answer; try done.
    by destruct (live_at T q s).
Qed.

Lemma operator_call_answer this d args s :
  descs s !! this = Some d →
  answer_of (operator_call this args s) =
    answer_of (invoke (pointee d) this args s).
Proof.
  intros Hd. unfold operator_call.
  by rewrite (bind_Ret _ _ _ _ _ (get_desc_Some _ _ _ Hd)).
Qed.

Lemma move_assign_storage T src dst v c0 s :
  cells s !! src = Some (Obj T v) → cells s !! dst = Some c0 →
  is_trivially_move_assignable (types T) = true →
  move_assign T (to_storage dst) (to_storage src) s =
    Ret () (upd_cells <[dst := Obj T v]> s).
Proof.
  intros Hv Hdst Hma. unfold move_assign.
  rewrite (bind_Ret _ _ _ _ _
             (object_at_Some _ _ _ _ (live_at_storage _ _ _ _ Hv))).
  simpl. by rewrite Hdst, Hma, orb_true_r.
Qed.

Lemma move_spec d src dst c c0 s :
  cells s !! src = Some c → cells s !! dst = Some c0 →
  holds s src d → storable_desc d →
  move (pointee d) src dst s = Ret () (relocate d dst c s).
Proof.
  intros Hsrc Hdst Hh Hst. destruct d as [|T]; [done|]. simpl in *.
  destruct (fits_small T) eqn:Hs.
  - destruct Hh as [v Hv]. destruct (Hst Hs) as [Hma Hde].
    assert (c = Obj T v) as -> by congruence.
    rewrite (bind_Ret _ _ _ _ _ (move_assign_storage _ _ _ _ _ _ Hv Hdst Hma)).
    erewrite bind_Ret; last first.
    { apply (ptr_from_storage_Some _ (Obj T v)). simpl.
      destruct (decide (dst = src)) as [->|Hne].
      - apply lookup_insert_eq.
      - by rewrite lookup_insert_ne. }
    unfold destruct_at. by rewrite live_at_wild, Hde.
  - rewrite (bind_Ret _ _ _ _ _ (load_Some _ _ _ Hsrc)).
    by rewrite (store_Some _ _ _ _ Hdst).
Qed.

Lemma copy_spec d src dst c0 s :
  cells s !! dst = Some c0 → holds s src d →
  copy (pointee d) src dst s = Ret () (install dst (payload s src d) s).
Proof.
  intros Hdst Hh. destruct d as [|T]; [done|]. simpl in *.
  destruct (fits_small T) eqn:Hs.
  - destruct Hh as [v Hv]. rewrite (live_at_storage _ _ _ _ Hv). simpl.
    rewrite Hs.
    rewrite (bind_Ret _ _ _ _ _
               (object_at_Some _ _ _ _ (live_at_storage _ _ _ _ Hv))).
    unfold construct_at. simpl. by rewrite Hdst.
  - destruct Hh as (p & v & Hc & Hp).
    rewrite Hc, (live_at_heap _ _ _ _ Hp). simpl. rewrite Hs.
    rewrite (bind_Ret _ _ _ _ _ (ptr_from_storage_Some _ _ _ Hc)).
    rewrite (bind_Ret _ _ _ _ _
               (object_at_Some _ _ _ _ (live_at_heap _ _ _ _ Hp))).
    unfold bind, new_, store_ptr, store. simpl. by rewrite Hdst.
Qed.

Lemma destroy_spec d l s :
  holds s l d →
  destroy (pointee d) l s = Ret () (discard d l s).
Proof.
  intros Hh. destruct d as [|T]; [done|]. simpl in *.
  destruct (fits_small T) eqn:Hs.
  - destruct Hh as [v Hv]. unfold destruct_at.
    by rewrite (live_at_storage _ _ _ _ Hv).
  - destruct Hh as (p & v & Hc & Hp). rewrite Hc.
    rewrite (bind_Ret _ _ _ _ _ (ptr_from_storage_Some _ _ _ Hc)).
    unfold delete_. by rewrite (live_at_heap _ _ _ _ Hp).
Qed.

(** ** The member functions on wrappers that hold what their table expects *)

Lemma fresh_loc_None (s : state) : cells s !! fresh (dom (cells s)) = None.
Proof. apply not_elem_of_dom, is_fresh. Qed.

Lemma function_default_spec this s :
  function_default this s =
    Ret () (upd_descs <[this := get_empty_func_descriptor]>
              (upd_cells <[this := Indeterminate]> s)).
Proof. done. Qed.

Lemma function_copy_spec this other d s :
  descs s !! other = Some d → holds s other d → this ≠ other →
  function_copy this other s =
    Ret () (install this (payload s other d)
              (upd_descs <[this := d]>
                 (upd_cells <[this := Indeterminate]> s))).
Proof.
  intros Hd Hh Hne. unfold function_copy.
  step reflexivity. step (by apply get_desc_Some). step reflexivity.
  erewrite copy_spec; [|simpl; apply lookup_insert_eq|]; last first.
  { eapply holds_agree; [| |exact Hh]; [|done]. simpl.
    by rewrite lookup_insert_ne. }
  f_equal. f_equal. apply payload_agree; [done| |done]. simpl.
  by rewrite lookup_insert_ne.
Qed.

Lemma function_move_spec this other d c s :
  descs s !! other = Some d → cells s !! other = Some c →
  holds s other d → storable_desc d → this ≠ other →
  function_move this other s =
    Ret () (upd_descs <[other := get_empty_func_descriptor]>
              (relocate d this c
                 (upd_descs <[this := d]>
                    (upd_cells <[this := Indeterminate]> s)))).
Proof.
  intros Hd Hc Hh Hst Hne. unfold function_move.
  step reflexivity. step (by apply get_desc_Some). step reflexivity.
  erewrite bind_Ret; [done|].
  eapply move_spec; [| |eapply holds_agree; [| |exact Hh]|done]; simpl.
  - by rewrite lookup_insert_ne.
  - apply lookup_insert_eq.
  - by rewrite lookup_insert_ne.
  - done.
Qed.

Lemma function_destroy_spec this d s :
  descs s !! this = Some d → holds s this d →
  function_destroy this s =
    Ret () (upd_cells (delete this) (upd_descs (delete this) (discard d this s))).
Proof.
  intros Hd Hh. unfold function_destroy.
  rewrite (bind_Ret _ _ _ _ _ (get_desc_Some _ d _ Hd)).
  by rewrite (bind_Ret _ _ _ _ _ (destroy_spec _ _ _ Hh)).
Qed.

Lemma relocate_descs d l c s : descs (relocate d l c s) = descs s.
Proof. by destruct d. Qed.

Lemma relocate_heap d l c s : heap (relocate d l c s) = heap s.
Proof. by destruct d. Qed.

Lemma relocate_cells_ne d l l' c s :
  l' ≠ l → cells (relocate d l c s) !! l' = cells s !! l'.
Proof. intros Hne. destruct d; [done|]. simpl. by rewrite lookup_insert_ne. Qed.

Lemma relocate_cells_eq d l c c0 s :
  cells s !! l = Some c0 →
  cells (relocate d l c s) !! l =
    Some (match d with get_empty_func_descriptor => c0 | _ => c end).
Proof. intros Hc. destruct d; [done|]. simpl. apply lookup_insert_eq. Qed.

Lemma move_via_desc w d src dst c c0 s :
  descs s !! w = Some d →
  cells s !! src = Some c → cells s !! dst = Some c0 →
  holds s src d → storable_desc d →
  (let* x := get_desc w in move (pointee x) src dst) s =
    Ret () (relocate d dst c s).
Proof.
  intros Hd Hsrc Hdst Hh Hst. step (by apply get_desc_Some).
  by eapply move_spec.
Qed.

(** The bytes a table moved keep what it expects. *)
Lemma holds_moved s s' l l' d c c' :
  holds s l d → cells s !! l = Some c →
  cells s' !! l' =
    Some (match d with get_empty_func_descriptor => c' | _ => c end) →
  heap s' = heap s → holds s' l' d.
Proof.
  intros Hh Hc Hc' Hp. destruct d as [|T]; simpl in *.
  - by rewrite Hc'.
  - rewrite Hc', Hp. by rewrite Hc in Hh.
Qed.

Lemma swap_spec this other da db ca cb s :
  descs s !! this = Some da → descs s !! other = Some db →
  cells s !! this = Some ca → cells s !! other = Some cb →
  holds s this da → holds s other db →
  storable_desc da → storable_desc db →
  swap this other s = Ret () (swapped this other da db ca cb s).
Proof.
  intros Hda Hdb Hca Hcb Hha Hhb Hsa Hsb.
  pose proof (fresh_loc_None s) as Htmp.
  unfold swap. step reflexivity. cbv beta.
  set (tmp := fresh (dom (cells s))) in *.
  assert (tmp ≠ this) as Hta by congruence.
  assert (tmp ≠ other) as Htb by congruence.
  step reflexivity.
  set (s0 := upd_cells <[tmp := Indeterminate]> s).
  assert (Hca0 : cells s0 !! this = Some ca) by (simpl; by rewrite lookup_insert_ne).
  assert (Hcb0 : cells s0 !! other = Some cb) by (simpl; by rewrite lookup_insert_ne).
  assert (Hct0 : cells s0 !! tmp = Some Indeterminate) by (simpl; apply lookup_insert_eq).
  (* other.desc->move(&other.storage, &tmp) *)
  set (s1 := relocate db tmp cb s0).
  step (apply (move_via_desc other db other tmp cb Indeterminate);
        [done..|apply (holds_agree s); [congruence|reflexivity|exact Hhb]|done]).
  fold s1.
  assert (Hca1 : cells s1 !! this = Some ca)
    by (unfold s1; by rewrite relocate_cells_ne).
  assert (Hcb1 : cells s1 !! other = Some cb)
    by (unfold s1; by rewrite relocate_cells_ne).
  pose proof (relocate_cells_eq db tmp cb _ s0 Hct0) as Hct1. fold s1 in Hct1.
  (* desc->move(&storage, &other.storage) *)
  set (s2 := relocate da other ca s1).
  step (apply (move_via_desc this da this other ca cb);
        [by unfold s1; rewrite relocate_descs|done|done
        |apply (holds_agree s);
           [congruence|by unfold s1; rewrite relocate_heap|exact Hha]
        |done]).
  fold s2.
  assert (Hct2 : cells s2 !! tmp = cells s1 !! tmp)
    by (unfold s2; by rewrite relocate_cells_ne).
  assert (Hca2 : ∃ c, cells s2 !! this = Some c).
  { destruct (decide (this = other)) as [->|Hne].
    - eexists. unfold s2. by apply relocate_cells_eq.
    - exists ca. unfold s2. by rewrite relocate_cells_ne. }
  destruct Hca2 as [ca2 Hca2].
  (* other.desc->move(&tmp, &storage) *)
  step (eapply (move_via_desc other db tmp this);
        [by unfold s2, s1; rewrite !relocate_descs
        |by rewrite Hct2|done
        |apply (holds_moved s s2 other tmp db cb Indeterminate);
           [done|done|by rewrite Hct2
           |by unfold s2, s1; rewrite !relocate_heap]
        |done]).
  (* swap(desc, other.desc) *)
  step (step (apply get_desc_Some;
              unfold s2, s1; rewrite !relocate_descs; exact Hda);
        step (apply get_desc_Some;
              unfold s2, s1; rewrite !relocate_descs; exact Hdb);
        step reflexivity; reflexivity).
  unfold release_storage, modify. f_equal.
  unfold swapped, s2, s1, s0.
  destruct da, db; unfold relocate, upd_cells, upd_descs; simpl;
    f_equal; apply map_eq; intros i;
    rewrite ?lookup_delete, ?lookup_insert;
    repeat case_decide; subst; congruence.
Qed.

(** ** Ownership of heap blocks *)

Lemma dom_insert_present {V} (m : gmap nat V) l x :
  is_Some (m !! l) → dom (<[l := x]> m) = dom m.
Proof.
  intros H. rewrite dom_insert_L.
  apply subseteq_union_1_L, singleton_subseteq_l. by apply elem_of_dom.
Qed.

Lemma owns_agree s s' w w' p :
  descs s' !! w' = descs s !! w → cells s' !! w' = cells s !! w →
  owns s w p → owns s' w' p.
Proof.
  intros Hd Hc (T & HT & Hs & Hp). exists T. by rewrite Hd, Hc.
Qed.

(** A state is well-formed when it is so but for no wrapper. *)
Lemma wf_but_empty s : wf s ↔ wf_but ∅ s.
Proof.
  split; intros [H1 H2 H3 H4 H5 H6]; split; try done.
  - intros w T _. apply H3.
  - intros w T. apply H3, not_elem_of_empty.
Qed.

Lemma wf_storable_desc s w d : wf s → descs s !! w = Some d → storable_desc d.
Proof. intros Hwf Hd. destruct d; [done|]. by apply (wf_storable s Hwf w). Qed.

Lemma apart_empty ops : apart ∅ ops.
Proof.
  apply Forall_forall. intros o _. apply Forall_forall. intros w _.
  apply not_elem_of_empty.
Qed.


Lemma owns_heap_but {B} s w p :
  wf_but B s → owns s w p → is_Some (heap s !! p).
Proof.
  intros Hwf (T & HT & Hs & Hp). pose proof (wfb_holds _ s Hwf w _ HT) as Hh.
  simpl in Hh. rewrite Hs in Hh. destruct Hh as (p' & v & Hp' & Hv).
  assert (p' = p) as -> by congruence. by rewrite Hv.
Qed.

Lemma owns_heap s w p : wf s → owns s w p → is_Some (heap s !! p).
Proof. intros Hwf%wf_but_empty. by apply (owns_heap_but (B := ∅)). Qed.

Lemma owns_live s w p : owns s w p → w ∈ dom (descs s).
Proof. intros (T & HT & _). apply elem_of_dom. by rewrite HT. Qed.

Lemma owns_inj s w p p' : owns s w p → owns s w p' → p = p'.
Proof. intros (T & _ & _ & Hp) (T' & _ & _ & Hp'). congruence. Qed.

(** A wrapper still holds what its table expects when the block its cell
    points to, if any, is kept. *)
Lemma holds_heap_agree s s' l d :
  cells s' !! l = cells s !! l →
  (∀ T p v, d = get_descriptor T → fits_small T = false →
            cells s !! l = Some (Ptr (to_heap p)) →
            heap s !! p = Some (Obj T v) → heap s' !! p = Some (Obj T v)) →
  holds s l d → holds s' l d.
Proof.
  intros Hc Hp. destruct d as [|T]; simpl; rewrite Hc; [done|].
  destruct (fits_small T) eqn:Hs; [done|]. intros (p' & v & Hp' & Hv).
  exists p', v. split; [done|]. by eapply Hp.
Qed.

(** ** Well-formedness is kept

    Each fact is shown for a state that is well-formed but for the wrappers
    in a set [B], and then for a well-formed state, where [B] is empty. *)

Lemma wf_no_objects : wf no_objects.
Proof.
  split; unfold owns; simpl; try done.
  - intros w1 w2 p (T & H & _). done.
  - intros p [x H]. done.
Qed.

(** A wrapper constructed at a new address, empty or with an object of its
    own: by default, from a callable, or as a copy. *)
Lemma wf_new_wrapper_but {B} w d pl s :
  wf_but B s → w ∉ dom (descs s) → (w ∉ B → storable_desc d) →
  match d with
  | get_empty_func_descriptor => pl = None
  | get_descriptor T => ∃ v, pl = Some (T, v)
  end →
  wf_but B
    (install w pl (upd_descs <[w := d]> (upd_cells <[w := Indeterminate]> s))).
Proof.
  intros Hwf Hw Hst Hpl.
  assert (Hwc : cells s !! w = None).
  { apply not_elem_of_dom. by rewrite (wfb_dom _ s Hwf). }
  assert (Hwd : descs s !! w = None) by by apply not_elem_of_dom.
  set (p := fresh (dom (heap s))).
  assert (Hp : heap s !! p = None) by apply fresh_heap_None.
  assert (Hold : ∀ w' q, owns s w' q → w' ≠ w ∧ q ≠ p).
  { intros w' q Ho. split.
    - intros ->. apply Hw. by eapply owns_live.
    - intros ->. destruct (owns_heap_but _ _ _ Hwf Ho) as [x Hx]. congruence. }
  set (s' := install w pl _).
  assert (Hd' : descs s' = <[w := d]> (descs s)).
  { unfold s'. destruct d as [|T].
    - by rewrite Hpl.
    - destruct Hpl as [v ->]. simpl. by destruct (fits_small T). }
  assert (Hcne : ∀ w', w' ≠ w → cells s' !! w' = cells s !! w').
  { intros w' Hne. unfold s'. destruct d as [|T].
    - rewrite Hpl. simpl. by rewrite lookup_insert_ne.
    - destruct Hpl as [v ->]. simpl.
      destruct (fits_small T); simpl; by rewrite !lookup_insert_ne. }
  assert (Hhne : ∀ q, q ≠ p → heap s' !! q = heap s !! q).
  { intros q Hne. unfold s'. destruct d as [|T].
    - by rewrite Hpl.
    - destruct Hpl as [v ->]. simpl.
      destruct (fits_small T); simpl; [done|]. by rewrite lookup_insert_ne. }
  assert (Hown : ∀ w' q, w' ≠ w → owns s' w' q ↔ owns s w' q).
  { intros w' q Hne.
    split; apply owns_agree; rewrite ?Hd', ?Hcne, ?lookup_insert_ne; done. }
  assert (Hnew : ∀ q, owns s' w q → q = p).
  { intros q (T & HT & Hs & Hc). rewrite Hd', lookup_insert_eq in HT.
    injection HT as ->. destruct Hpl as [v ->]. unfold s' in Hc.
    simpl in Hc. rewrite Hs in Hc. simpl in Hc.
    rewrite lookup_insert_eq in Hc. by injection Hc as <-. }
  split.
  - rewrite Hd', dom_insert_L, <- (wfb_dom _ s Hwf). unfold s'.
    destruct d as [|T].
    + rewrite Hpl. simpl. by rewrite dom_insert_L.
    + destruct Hpl as [v ->]. simpl.
      destruct (fits_small T); simpl;
        by rewrite insert_insert_eq, dom_insert_L.
  - intros w' d'. rewrite Hd'. destruct (decide (w' = w)) as [->|Hne].
    + rewrite lookup_insert_eq. intros [= <-]. unfold s'.
      destruct d as [|T].
      * rewrite Hpl. simpl. by rewrite lookup_insert_eq.
      * destruct Hpl as [v ->]. simpl. destruct (fits_small T); simpl.
        { exists v. apply lookup_insert_eq. }
        { exists p, v. by rewrite !lookup_insert_eq. }
    + rewrite lookup_insert_ne by done. intros Hd.
      apply (holds_heap_agree s s'); [by apply Hcne| |by apply (wfb_holds _ s Hwf)].
      intros T q v _ _ _ Hq. rewrite Hhne; [done|]. intros ->. congruence.
  - intros w' T HB. rewrite Hd'. destruct (decide (w' = w)) as [->|Hne].
    + rewrite lookup_insert_eq. intros [= ->]. by apply Hst.
    + rewrite lookup_insert_ne by done. by apply (wfb_storable _ s Hwf).
  - intros w1 w2 q H1 H2.
    destruct (decide (w1 = w)) as [->|Hne1], (decide (w2 = w)) as [->|Hne2];
      [done| | |].
    + apply Hown in H2; [|done]. apply Hnew in H1 as ->.
      by destruct (Hold _ _ H2).
    + apply Hown in H1; [|done]. apply Hnew in H2 as ->.
      by destruct (Hold _ _ H1).
    + apply Hown in H1, H2; [|done..]. by eapply (wfb_unique _ s Hwf).
  - intros q Hq. destruct (decide (q = p)) as [->|Hne].
    + exists w. revert Hq. unfold s'. destruct d as [|T].
      * rewrite Hpl. simpl. rewrite Hp. by intros [].
      * destruct Hpl as [v ->]. simpl. destruct (fits_small T) eqn:Hs; simpl.
        { rewrite Hp. by intros []. }
        intros _. exists T. simpl. by rewrite !lookup_insert_eq.
    + rewrite Hhne in Hq by done.
      destruct (wfb_owned _ s Hwf q Hq) as [w' Hw'].
      exists w'. apply Hown; [|done]. by destruct (Hold _ _ Hw').
  - pose proof (wfb_count _ s Hwf) as Hn. unfold s'. destruct d as [|T].
    + by rewrite Hpl.
    + destruct Hpl as [v ->]. simpl. destruct (fits_small T); simpl; [done|].
      rewrite map_size_insert_None by done. lia.
Qed.

Lemma wf_new_wrapper w d pl s :
  wf s → w ∉ dom (descs s) → storable_desc d →
  match d with
  | get_empty_func_descriptor => pl = None
  | get_descriptor T => ∃ v, pl = Some (T, v)
  end →
  wf (install w pl (upd_descs <[w := d]> (upd_cells <[w := Indeterminate]> s))).
Proof.
  intros Hwf%wf_but_empty Hw Hst Hpl. apply wf_but_empty.
  by apply wf_new_wrapper_but.
Qed.

Lemma relocate_counts d l c s :
  allocs (relocate d l c s) = allocs s ∧ frees (relocate d l c s) = frees s.
Proof. by destruct d. Qed.

Lemma relocate_dom d l c s :
  is_Some (cells s !! l) → dom (cells (relocate d l c s)) = dom (cells s).
Proof.
  intros Hl. destruct d; [done|]. simpl. by apply dom_insert_present.
Qed.

Lemma exchange_involutive this other w :
  exchange this other (exchange this other w) = w.
Proof. unfold exchange. repeat case_decide; congruence. Qed.

Lemma wf_swapped_but {B} this other da db ca cb s :
  wf_but B s →
  descs s !! this = Some da → descs s !! other = Some db →
  cells s !! this = Some ca → cells s !! other = Some cb →
  storable_desc da → storable_desc db →
  wf_but B (swapped this other da db ca cb s).
Proof.
  intros Hwf Hda Hdb Hca Hcb Hsa Hsb. set (s' := swapped this other da db ca cb s).
  set (σ := exchange this other).
  assert (Hd' : descs s' = <[other := da]> (<[this := db]> (descs s))).
  { unfold s', swapped. simpl. by rewrite !relocate_descs. }
  assert (Hh' : heap s' = heap s).
  { unfold s', swapped. simpl. by rewrite !relocate_heap. }
  assert (K1 : ∀ w, descs s' !! w = descs s !! σ w).
  { intros w. rewrite Hd'. unfold σ, exchange.
    rewrite !lookup_insert. repeat case_decide; congruence. }
  assert (Hcother : is_Some (cells (relocate da other ca s) !! this)).
  { destruct (decide (this = other)) as [->|Hne].
    - erewrite relocate_cells_eq; done.
    - rewrite relocate_cells_ne; done. }
  assert (Hdom : dom (cells s') = dom (cells s)).
  { unfold s', swapped. simpl. rewrite relocate_dom by done.
    by rewrite relocate_dom. }
  assert (K4 : ∀ w T, descs s !! σ w = Some (get_descriptor T) →
                      cells s' !! w = cells s !! σ w).
  { intros w T. unfold s', swapped, σ, exchange. simpl.
    destruct Hcother as [c0 Hc0]. repeat case_decide; subst; intros HT.
    - erewrite relocate_cells_eq by done. rewrite Hcb.
      assert (db = get_descriptor T) as -> by congruence. done.
    - rewrite relocate_cells_ne by done.
      erewrite relocate_cells_eq by done. rewrite Hca.
      assert (da = get_descriptor T) as -> by congruence. done.
    - by rewrite !relocate_cells_ne. }
  assert (K3 : ∀ w q, owns s' w q ↔ owns s (σ w) q).
  { intros w q. split; intros (T & HT & Hs & Hc); exists T.
    - rewrite K1 in HT. by rewrite <- (K4 _ _ HT).
    - rewrite K1. by rewrite (K4 _ _ HT). }
  split.
  - rewrite Hdom, Hd', (wfb_dom _ s Hwf).
    rewrite !dom_insert_present; [done|by rewrite Hda|].
    rewrite lookup_insert. case_decide; [done|by rewrite Hdb].
  - intros w d. rewrite K1. intros Hd.
    pose proof (wfb_holds _ s Hwf _ _ Hd) as Hh. destruct d as [|T].
    + unfold holds. apply elem_of_dom. rewrite Hdom, (wfb_dom _ s Hwf).
      unfold σ, exchange in Hd.
      repeat case_decide; subst; by eapply elem_of_dom_2.
    + unfold holds in *. by rewrite (K4 _ _ Hd), Hh'.
  - intros w T HB. rewrite K1. unfold σ, exchange. intros Hd.
    repeat case_decide; subst.
    + rewrite Hdb in Hd. injection Hd as ->. exact Hsb.
    + rewrite Hda in Hd. injection Hd as ->. exact Hsa.
    + by apply (wfb_storable _ s Hwf w).
  - intros w1 w2 q H1 H2. apply K3 in H1, H2.
    pose proof (wfb_unique _ s Hwf _ _ _ H1 H2) as Heq.
    rewrite <- (exchange_involutive this other w1),
      <- (exchange_involutive this other w2).
    unfold σ in Heq. by rewrite Heq.
  - intros q. rewrite Hh'. intros Hq.
    destruct (wfb_owned _ s Hwf q Hq) as [w Hw].
    exists (σ w). apply K3. unfold σ. by rewrite exchange_involutive.
  - unfold s', swapped. simpl.
    destruct (relocate_counts db this cb (relocate da other ca s)) as [-> ->].
    destruct (relocate_counts da other ca s) as [-> ->].
    rewrite !relocate_heap. apply (wfb_count _ s Hwf).
Qed.

Lemma wf_swapped this other da db ca cb s :
  wf s →
  descs s !! this = Some da → descs s !! other = Some db →
  cells s !! this = Some ca → cells s !! other = Some cb →
  wf (swapped this other da db ca cb s).
Proof.
  intros Hwf Hda Hdb Hca Hcb. apply wf_but_empty.
  apply wf_swapped_but; try done; [by apply wf_but_empty|..];
    by eapply wf_storable_desc.
Qed.

(** The target of a move construction at a new address. *)
Lemma wf_moved_but {B} this other d c s :
  wf_but B s → this ∉ dom (descs s) →
  descs s !! other = Some d → cells s !! other = Some c →
  storable_desc d →
  wf_but B (upd_descs <[other := get_empty_func_descriptor]>
        (relocate d this c
           (upd_descs <[this := d]> (upd_cells <[this := Indeterminate]> s)))).
Proof.
  intros Hwf Hthis Hd Hc Hsd.
  set (s1 := upd_descs <[this := d]> (upd_cells <[this := Indeterminate]> s)).
  set (s' := upd_descs _ _).
  assert (Hne : this ≠ other).
  { intros ->. apply Hthis. by eapply elem_of_dom_2. }
  assert (Hd' : descs s' =
                <[other := get_empty_func_descriptor]> (<[this := d]> (descs s))).
  { unfold s'. simpl. by rewrite relocate_descs. }
  assert (Hh' : heap s' = heap s).
  { unfold s'. simpl. by rewrite relocate_heap. }
  assert (Hcne : ∀ w, w ≠ this → cells s' !! w = cells s !! w).
  { intros w Hw. unfold s'. simpl. rewrite relocate_cells_ne by done.
    simpl. by rewrite lookup_insert_ne. }
  assert (Hcthis : cells s' !! this =
            Some (match d with
                  | get_empty_func_descriptor => Indeterminate
                  | _ => c
                  end)).
  { unfold s'. simpl. apply relocate_cells_eq. simpl. apply lookup_insert_eq. }
  assert (Hto : ∀ w q, owns s' w q →
                  w ≠ other ∧ owns s (if decide (w = this) then other else w) q).
  { intros w q (T & HT & Hs & Hq). rewrite Hd' in HT.
    destruct (decide (w = other)) as [->|Hwo].
    { by rewrite lookup_insert_eq in HT. }
    split; [done|]. rewrite lookup_insert_ne in HT by done.
    exists T. case_decide as Hw.
    - subst w. rewrite lookup_insert_eq in HT. injection HT as ->.
      by rewrite <- Hq, Hcthis, Hc.
    - rewrite lookup_insert_ne in HT by done. by rewrite <- Hcne. }
  assert (Hfrom : ∀ w q, owns s w q →
                    owns s' (if decide (w = other) then this else w) q).
  { intros w q Ho. pose proof (owns_live _ _ _ Ho) as Hlive.
    destruct Ho as (T & HT & Hs & Hq). exists T. rewrite Hd'.
    case_decide as Hw.
    - subst w. rewrite lookup_insert_ne, lookup_insert_eq by done.
      assert (d = get_descriptor T) as -> by congruence.
      by rewrite Hcthis, <- Hq, Hc.
    - assert (w ≠ this) by (by intros ->).
      by rewrite !lookup_insert_ne, Hcne. }
  split.
  - rewrite Hd'. rewrite (dom_insert_present (<[this := d]> (descs s)));
      [|by rewrite lookup_insert_ne, Hd].
    unfold s'. simpl. rewrite relocate_dom;
      [|simpl; by rewrite lookup_insert_eq].
    simpl. by rewrite !dom_insert_L, (wfb_dom _ s Hwf).
  - intros w d'. rewrite Hd'.
    destruct (decide (w = other)) as [->|Hwo].
    { rewrite lookup_insert_eq. intros [= <-]. unfold holds.
      by rewrite Hcne, Hc. }
    rewrite lookup_insert_ne by done.
    destruct (decide (w = this)) as [->|Hwt].
    + rewrite lookup_insert_eq. intros [= <-].
      apply (holds_moved s s' other this d c Indeterminate);
        [by apply (wfb_holds _ s Hwf)|done..].
    + rewrite lookup_insert_ne by done. intros Hw.
      apply (holds_agree s); [by apply Hcne|done|by apply (wfb_holds _ s Hwf)].
  - intros w T HB. rewrite Hd'.
    destruct (decide (w = other)) as [->|Hwo].
    { by rewrite lookup_insert_eq. }
    rewrite lookup_insert_ne by done.
    destruct (decide (w = this)) as [->|Hwt].
    + rewrite lookup_insert_eq. by intros [= ->].
    + rewrite lookup_insert_ne by done. by apply (wfb_storable _ s Hwf).
  - intros w1 w2 q H1 H2.
    destruct (Hto _ _ H1) as [Hn1 Ho1], (Hto _ _ H2) as [Hn2 Ho2].
    pose proof (wfb_unique _ s Hwf _ _ _ Ho1 Ho2) as Heq.
    repeat case_decide; congruence.
  - intros q. rewrite Hh'. intros Hq.
    destruct (wfb_owned _ s Hwf q Hq) as [w Hw]. eexists. by apply Hfrom.
  - unfold s'. simpl. destruct (relocate_counts d this c s1) as [-> ->].
    rewrite relocate_heap. apply (wfb_count _ s Hwf).
Qed.


(** A wrapper and the block it owns, if it owns one, are gone. *)
Lemma wf_removed_but {B} this (o : option addr) s s' :
  wf_but B s →
  descs s' = delete this (descs s) → cells s' = delete this (cells s) →
  (∀ q, owns s this q ↔ o = Some q) →
  heap s' = from_option (fun p => delete p (heap s)) (heap s) o →
  allocs s' = allocs s →
  frees s' = frees s + from_option (fun _ => 1) 0 o →
  wf_but B s'.
Proof.
  intros Hwf Hd' Hc' Ho Hh' Ha' Hf'.
  assert (Hown : ∀ w q, owns s' w q → w ≠ this ∧ owns s w q).
  { intros w q (T & HT & Hs & Hq). rewrite Hd' in HT. rewrite Hc' in Hq.
    apply lookup_delete_Some in HT as [Hne HT].
    rewrite lookup_delete_ne in Hq by done. split; [done|]. by exists T. }
  assert (Hkeep : ∀ w q, w ≠ this → owns s w q → owns s' w q).
  { intros w q Hne. apply owns_agree; rewrite ?Hd', ?Hc';
      by rewrite lookup_delete_ne. }
  split.
  - by rewrite Hd', Hc', !dom_delete_L, (wfb_dom _ s Hwf).
  - intros w d. rewrite Hd'. intros [Hne Hd]%lookup_delete_Some.
    apply (holds_heap_agree s);
      [by rewrite Hc', lookup_delete_ne| |by apply (wfb_holds _ s Hwf)].
    intros T p v -> Hs Hp Hv. rewrite Hh'. destruct o as [p0|]; [|done].
    simpl. rewrite lookup_delete_ne; [done|]. intros ->. apply Hne.
    apply (wfb_unique _ s Hwf this w p); [by apply Ho|by exists T].
  - intros w T HB. rewrite Hd'. intros [Hne Hd]%lookup_delete_Some.
    by apply (wfb_storable _ s Hwf w).
  - intros w1 w2 q [_ H1]%Hown [_ H2]%Hown. by apply (wfb_unique _ s Hwf _ _ q).
  - intros q. rewrite Hh'. intros Hq.
    assert (is_Some (heap s !! q) ∧ o ≠ Some q) as [Hq' Hqo].
    { destruct o as [p0|]; simpl in Hq; [|done].
      apply lookup_delete_is_Some in Hq as [Hne Hq]. split; [done|congruence]. }
    destruct (wfb_owned _ s Hwf q Hq') as [w Hw]. exists w. apply Hkeep; [|done].
    intros ->. by apply Hqo, Ho.
  - rewrite Ha', Hf', Hh', (wfb_count _ s Hwf). destruct o as [p0|]; simpl; [|lia].
    assert (is_Some (heap s !! p0)) as Hp0.
    { apply (owns_heap_but (B := B) s this); [done|by apply Ho]. }
    rewrite map_size_delete_Some by done.
    destruct Hp0 as [x Hx]. pose proof (map_size_non_empty_iff (heap s)) as Hsz.
    assert (size (heap s) ≠ 0).
    { apply Hsz. intros Hemp. by rewrite Hemp, lookup_empty in Hx. }
    lia.
Qed.

Lemma wf_removed this (o : option addr) s s' :
  wf s →
  descs s' = delete this (descs s) → cells s' = delete this (cells s) →
  (∀ q, owns s this q ↔ o = Some q) →
  heap s' = from_option (fun p => delete p (heap s)) (heap s) o →
  allocs s' = allocs s →
  frees s' = frees s + from_option (fun _ => 1) 0 o →
  wf s'.
Proof.
  intros Hwf%wf_but_empty Hd' Hc' Ho Hh' Ha' Hf'. apply wf_but_empty.
  by apply (wf_removed_but this o s).
Qed.

Lemma discard_counts d l s :
  holds s l d →
  allocs (discard d l s) = allocs s
  ∧ frees (discard d l s) = frees s + blocks d.
Proof.
  destruct d as [|T]; simpl; [lia|]. destruct (fits_small T); simpl; [lia|].
  intros (p & v & -> & _). simpl. lia.
Qed.

Lemma wf_destroyed_but {B} this d s :
  wf_but B s → descs s !! this = Some d →
  wf_but B (upd_cells (delete this) (upd_descs (delete this) (discard d this s))).
Proof.
  intros Hwf Hd. pose proof (wfb_holds _ s Hwf _ _ Hd) as Hh.
  destruct d as [|T]; [|simpl in Hh; destruct (fits_small T) eqn:Hs].
  - apply (wf_removed_but this None s); simpl; try done; try lia.
    intros q. split; [|done]. intros (T & HT & _). congruence.
  - apply (wf_removed_but this None s); simpl; rewrite ?Hs; simpl;
      rewrite ?delete_insert_eq; try done; try lia.
    intros q. split; [|done]. intros (T' & HT & Hs' & _). congruence.
  - destruct Hh as (p & v & Hc & Hp).
    apply (wf_removed_but this (Some p) s); simpl; rewrite ?Hs, ?Hc; simpl;
      try done; try lia.
    intros q. split.
    + intros (T' & _ & _ & Hq). congruence.
    + intros [= <-]. by exists T.
Qed.

Lemma wf_destroyed this d s :
  wf s → descs s !! this = Some d →
  wf (upd_cells (delete this) (upd_descs (delete this) (discard d this s))).
Proof.
  intros Hwf%wf_but_empty Hd. apply wf_but_empty. by apply wf_destroyed_but.
Qed.

(** ** Statements in scope on a well-formed state *)

Lemma wf_cell_but {B} s w d :
  wf_but B s → descs s !! w = Some d → is_Some (cells s !! w).
Proof.
  intros Hwf Hd. apply elem_of_dom. rewrite (wfb_dom _ s Hwf).
  by eapply elem_of_dom_2.
Qed.

Lemma wf_cell s w d : wf s → descs s !! w = Some d → is_Some (cells s !! w).
Proof. intros Hwf%wf_but_empty. by apply (wf_cell_but (B := ∅)). Qed.

Lemma function_from_spec this T val s :
  function_from this T val s =
    Ret () (install this (Some (T, val))
              (upd_descs <[this := get_descriptor T]>
                 (upd_cells <[this := Indeterminate]> s))).
Proof.
  destruct (fits_small T) eqn:Hs.
  - rewrite function_from_small by done. simpl. by rewrite Hs.
  - rewrite function_from_boxed by done. simpl. by rewrite Hs.
Qed.

Lemma install_descs l pl s : descs (install l pl s) = descs s.
Proof. destruct pl as [[T v]|]; [|done]. simpl. by destruct (fits_small T). Qed.

Lemma install_counts l d pl s :
  match d with
  | get_empty_func_descriptor => pl = None
  | get_descriptor T => ∃ v, pl = Some (T, v)
  end →
  allocs (install l pl s) = allocs s + blocks d
  ∧ frees (install l pl s) = frees s.
Proof.
  destruct d as [|T].
  - intros ->. simpl. lia.
  - intros [v ->]. simpl. destruct (fits_small T); simpl; lia.
Qed.

Lemma swapped_descs this other da db ca cb s :
  descs (swapped this other da db ca cb s) =
    <[other := da]> (<[this := db]> (descs s)).
Proof. unfold swapped. simpl. by rewrite !relocate_descs. Qed.

Lemma swapped_heap this other da db ca cb s :
  heap (swapped this other da db ca cb s) = heap s.
Proof. unfold swapped. simpl. by rewrite !relocate_heap. Qed.

Lemma swapped_counts this other da db ca cb s :
  allocs (swapped this other da db ca cb s) = allocs s
  ∧ frees (swapped this other da db ca cb s) = frees s.
Proof.
  unfold swapped. simpl.
  destruct (relocate_counts db this cb (relocate da other ca s)) as [-> ->].
  apply relocate_counts.
Qed.

Lemma swapped_cells_ne this other da db ca cb s w :
  w ≠ this → w ≠ other →
  cells (swapped this other da db ca cb s) !! w = cells s !! w.
Proof.
  intros H1 H2. unfold swapped. simpl. by rewrite !relocate_cells_ne.
Qed.

(** What each wrapper holds after [swap] is what the other held. *)
Lemma swapped_payload this other da db ca cb s :
  this ≠ other →
  cells s !! this = Some ca → cells s !! other = Some cb →
  holds s this da → holds s other db →
  payload (swapped this other da db ca cb s) this db = payload s other db
  ∧ payload (swapped this other da db ca cb s) other da = payload s this da.
Proof.
  intros Hne Hca Hcb Hha Hhb. split.
  - destruct db as [|T]; [done|]. apply payload_agree; [done| |].
    + unfold swapped. simpl. by rewrite lookup_insert_eq, Hcb.
    + apply swapped_heap.
  - destruct da as [|T]; [done|]. apply payload_agree; [done| |].
    + unfold swapped. simpl. rewrite relocate_cells_ne by done.
      simpl. by rewrite lookup_insert_eq, Hca.
    + apply swapped_heap.
Qed.

Lemma function_default_ok_but {B} this s :
  wf_but B s → this ∉ dom (descs s) →
  wf_but B (upd_descs <[this := get_empty_func_descriptor]>
        (upd_cells <[this := Indeterminate]> s)).
Proof.
  intros Hwf Hthis.
  by apply (wf_new_wrapper_but this get_empty_func_descriptor None s).
Qed.

Lemma function_default_ok this s :
  wf s → this ∉ dom (descs s) →
  wf (upd_descs <[this := get_empty_func_descriptor]>
        (upd_cells <[this := Indeterminate]> s)).
Proof.
  intros Hwf%wf_but_empty Hthis. apply wf_but_empty.
  by apply function_default_ok_but.
Qed.

Lemma function_from_ok_but {B} this T val s :
  wf_but B s → this ∉ dom (descs s) → (this ∉ B → storable T) →
  wf_but B (install this (Some (T, val))
              (upd_descs <[this := get_descriptor T]>
                 (upd_cells <[this := Indeterminate]> s))).
Proof.
  intros Hwf Hthis Hst. apply wf_new_wrapper_but; [done..|]. by exists val.
Qed.

Lemma function_from_ok this T val s :
  wf s → this ∉ dom (descs s) → storable T →
  wf (install this (Some (T, val))
        (upd_descs <[this := get_descriptor T]>
           (upd_cells <[this := Indeterminate]> s))).
Proof.
  intros Hwf%wf_but_empty Hthis Hst. apply wf_but_empty.
  by apply function_from_ok_but.
Qed.

Lemma function_copy_ok_but {B} this other d s :
  wf_but B s → this ∉ dom (descs s) → descs s !! other = Some d →
  storable_desc d →
  function_copy this other s =
    Ret () (install this (payload s other d)
              (upd_descs <[this := d]> (upd_cells <[this := Indeterminate]> s)))
  ∧ wf_but B (install this (payload s other d)
          (upd_descs <[this := d]> (upd_cells <[this := Indeterminate]> s))).
Proof.
  intros Hwf Hthis Hd Hsd. pose proof (wfb_holds _ s Hwf _ _ Hd) as Hh.
  assert (this ≠ other) as Hne.
  { intros ->. apply Hthis. by eapply elem_of_dom_2. }
  split; [by apply function_copy_spec|].
  apply wf_new_wrapper_but; [done..|by apply holds_payload].
Qed.

Lemma function_copy_ok this other d s :
  wf s → this ∉ dom (descs s) → descs s !! other = Some d →
  function_copy this other s =
    Ret () (install this (payload s other d)
              (upd_descs <[this := d]> (upd_cells <[this := Indeterminate]> s)))
  ∧ wf (install this (payload s other d)
          (upd_descs <[this := d]> (upd_cells <[this := Indeterminate]> s))).
Proof.
  intros Hwf Hthis Hd. rewrite wf_but_empty.
  apply function_copy_ok_but; try done; [by apply wf_but_empty|].
  by eapply wf_storable_desc.
Qed.

Lemma wf_storable_desc_but {B} s w d :
  wf_but B s → w ∉ B → descs s !! w = Some d → storable_desc d.
Proof.
  intros Hwf HB Hd. destruct d; [done|]. by apply (wfb_storable _ s Hwf w).
Qed.


Lemma function_move_ok_but {B} this other d s :
  wf_but B s → this ∉ dom (descs s) → descs s !! other = Some d →
  storable_desc d →
  ∃ c, cells s !! other = Some c
       ∧ function_move this other s =
           Ret () (upd_descs <[other := get_empty_func_descriptor]>
                     (relocate d this c
                        (upd_descs <[this := d]>
                           (upd_cells <[this := Indeterminate]> s))))
       ∧ wf_but B (upd_descs <[other := get_empty_func_descriptor]>
               (relocate d this c
                  (upd_descs <[this := d]>
                     (upd_cells <[this := Indeterminate]> s)))).
Proof.
  intros Hwf Hthis Hd Hsd. destruct (wf_cell_but s other d Hwf Hd) as [c Hc].
  assert (this ≠ other) as Hne.
  { intros ->. apply Hthis. by eapply elem_of_dom_2. }
  exists c. split; [done|]. split; [|by apply wf_moved_but].
  apply function_move_spec; [done..|by apply (wfb_holds _ s Hwf)
                            |done|done].
Qed.

Lemma function_move_ok this other d s :
  wf s → this ∉ dom (descs s) → descs s !! other = Some d →
  ∃ c, cells s !! other = Some c
       ∧ function_move this other s =
           Ret () (upd_descs <[other := get_empty_func_descriptor]>
                     (relocate d this c
                        (upd_descs <[this := d]>
                           (upd_cells <[this := Indeterminate]> s))))
       ∧ wf (upd_descs <[other := get_empty_func_descriptor]>
               (relocate d this c
                  (upd_descs <[this := d]>
                     (upd_cells <[this := Indeterminate]> s)))).
Proof.
  intros Hwf Hthis Hd.
  destruct (function_move_ok_but (B := ∅) this other d s) as (c & Hc & Hrun & Hwf');
    try done; [by apply wf_but_empty|by eapply wf_storable_desc|].
  exists c. split; [done|]. split; [done|]. by apply wf_but_empty.
Qed.

Lemma swap_ok_but {B} this other da db s :
  wf_but B s → descs s !! this = Some da → descs s !! other = Some db →
  storable_desc da → storable_desc db →
  ∃ ca cb, cells s !! this = Some ca ∧ cells s !! other = Some cb
           ∧ swap this other s = Ret () (swapped this other da db ca cb s)
           ∧ wf_but B (swapped this other da db ca cb s).
Proof.
  intros Hwf Hda Hdb Hsa Hsb.
  destruct (wf_cell_but s this da Hwf Hda) as [ca Hca].
  destruct (wf_cell_but s other db Hwf Hdb) as [cb Hcb].
  exists ca, cb. split; [done|]. split; [done|].
  split; [|by apply wf_swapped_but].
  apply swap_spec; try done; by apply (wfb_holds _ s Hwf).
Qed.

Lemma swap_ok this other da db s :
  wf s → descs s !! this = Some da → descs s !! other = Some db →
  ∃ ca cb, cells s !! this = Some ca ∧ cells s !! other = Some cb
           ∧ swap this other s = Ret () (swapped this other da db ca cb s)
           ∧ wf (swapped this other da db ca cb s).
Proof.
  intros Hwf Hda Hdb.
  destruct (swap_ok_but (B := ∅) this other da db s)
    as (ca & cb & Hca & Hcb & Hrun & Hwf');
    try done; [by apply wf_but_empty|by eapply wf_storable_desc..|].
  exists ca, cb. split; [done|]. split; [done|]. split; [done|].
  by apply wf_but_empty.
Qed.

Lemma function_destroy_ok_but {B} this d s :
  wf_but B s → descs s !! this = Some d →
  function_destroy this s =
    Ret () (upd_cells (delete this) (upd_descs (delete this) (discard d this s)))
  ∧ wf_but B (upd_cells (delete this) (upd_descs (delete this) (discard d this s))).
Proof.
  intros Hwf Hd. split; [|by apply wf_destroyed_but].
  apply function_destroy_spec; [done|by apply (wfb_holds _ s Hwf)].
Qed.

Lemma function_destroy_ok this d s :
  wf s → descs s !! this = Some d →
  function_destroy this s =
    Ret () (upd_cells (delete this) (upd_descs (delete this) (discard d this s)))
  ∧ wf (upd_cells (delete this) (upd_descs (delete this) (discard d this s))).
Proof.
  intros Hwf%wf_but_empty Hd. rewrite wf_but_empty.
  by apply function_destroy_ok_but.
Qed.

Lemma discard_descs d l s : descs (discard d l s) = descs s.
Proof.
  destruct d as [|T]; [done|]. simpl. destruct (fits_small T); [done|].
  by destruct (cells s !! l) as [[| |[]]|].
Qed.

Lemma descs_upd_descs f (s : state) : descs (upd_descs f s) = f (descs s).
Proof. done. Qed.
Lemma descs_upd_cells f (s : state) : descs (upd_cells f s) = descs s.
Proof. done. Qed.
Lemma cells_upd_descs f (s : state) : cells (upd_descs f s) = cells s.
Proof. done. Qed.
Lemma cells_upd_cells f (s : state) : cells (upd_cells f s) = f (cells s).
Proof. done. Qed.

Lemma discard_cells_ne d l w s :
  w ≠ l → cells (discard d l s) !! w = cells s !! w.
Proof.
  intros Hne. destruct d as [|T]; [done|]. simpl.
  destruct (fits_small T); simpl; [by rewrite lookup_insert_ne|].
  by destruct (cells s !! l) as [[| |[]]|].
Qed.

Lemma fresh_loc_not_live_but {B} s :
  wf_but B s → fresh (dom (cells s)) ∉ dom (descs s).
Proof. intros Hwf. rewrite <- (wfb_dom _ s Hwf). apply is_fresh. Qed.

Lemma fresh_loc_not_live s : wf s → fresh (dom (cells s)) ∉ dom (descs s).
Proof. intros Hwf%wf_but_empty. by apply (fresh_loc_not_live_but (B := ∅)). Qed.

(** [w = std::move(rhs)] on two different wrappers. *)
Lemma assign_move_ok_but {B} this rhs da db s :
  wf_but B s → descs s !! this = Some da → descs s !! rhs = Some db → this ≠ rhs →
  storable_desc da → storable_desc db →
  ∃ s', assign_move this rhs s = Ret () s'
        ∧ wf_but B s'
        ∧ descs s' = <[rhs := get_empty_func_descriptor]> (<[this := db]> (descs s))
        ∧ allocs s' = allocs s
        ∧ frees s' = frees s + blocks da
        ∧ (db ≠ get_empty_func_descriptor → cells s' !! this = cells s !! rhs).
Proof.
  intros Hwf Hda Hdb Hne Hsa Hsb. unfold assign_move.
  rewrite bool_decide_true by done.
  (* swap(rhs) *)
  destruct (swap_ok_but this rhs da db s Hwf Hda Hdb Hsa Hsb)
    as (ca & cb & Hca & Hcb & Hswap1 & Hwf1).
  set (s1 := swapped this rhs da db ca cb s) in *.
  step (exact Hswap1).
  assert (Hd1 : descs s1 = <[rhs := da]> (<[this := db]> (descs s)))
    by apply swapped_descs.
  (* function() *)
  step reflexivity. cbv beta. set (t := fresh (dom (cells s1))).
  assert (Ht : t ∉ dom (descs s1)) by by apply (fresh_loc_not_live_but (B := B)).
  assert (descs s !! t = None ∧ t ≠ this ∧ t ≠ rhs) as (Htd & Htt & Htr).
  { rewrite Hd1, !dom_insert_L in Ht. apply not_elem_of_union in Ht as [Hr Ht].
    apply not_elem_of_union in Ht as [Hth Ht].
    apply not_elem_of_singleton in Hr, Hth. by apply not_elem_of_dom in Ht. }
  pose proof (function_default_ok_but t s1 Hwf1 Ht) as Hwf2.
  step (apply function_default_spec).
  set (s2 := upd_descs _ (upd_cells _ s1)) in *.
  (* .swap(rhs) *)
  assert (Hdt2 : descs s2 !! t = Some get_empty_func_descriptor)
    by (unfold s2; rewrite descs_upd_descs; apply lookup_insert_eq).
  assert (Hdr2 : descs s2 !! rhs = Some da).
  { unfold s2. rewrite descs_upd_descs, lookup_insert_ne by done.
    rewrite descs_upd_cells, Hd1. apply lookup_insert_eq. }
  destruct (swap_ok_but t rhs _ _ s2 Hwf2 Hdt2 Hdr2 I Hsa)
    as (ct & cr & Hct & Hcr & Hswap2 & Hwf3).
  set (s3 := swapped t rhs get_empty_func_descriptor da ct cr s2) in *.
  step (exact Hswap2).
  (* the temporary is destroyed *)
  assert (Hdt3 : descs s3 !! t = Some da).
  { unfold s3. rewrite swapped_descs, lookup_insert_ne by done.
    apply lookup_insert_eq. }
  destruct (function_destroy_ok_but t da s3 Hwf3 Hdt3) as [Hdestroy Hwf4].
  eexists. split; [exact Hdestroy|]. split; [exact Hwf4|].
  destruct (discard_counts da t s3 (wfb_holds _ s3 Hwf3 _ _ Hdt3)) as [Ha Hf].
  destruct (swapped_counts t rhs get_empty_func_descriptor da ct cr s2)
    as [Ha3 Hf3].
  destruct (swapped_counts this rhs da db ca cb s) as [Ha1 Hf1].
  fold s3 in Ha3, Hf3. fold s1 in Ha1, Hf1.
  split; [|split; [|split]].
  - rewrite descs_upd_cells, descs_upd_descs, discard_descs.
    unfold s3. rewrite swapped_descs. unfold s2.
    rewrite descs_upd_descs, descs_upd_cells, Hd1. apply map_eq. intros i.
    rewrite ?lookup_delete, ?lookup_insert.
    repeat case_decide; congruence.
  - change (allocs (discard da t s3) = allocs s). rewrite Ha, Ha3.
    change (allocs s1 = allocs s). by rewrite Ha1.
  - change (frees (discard da t s3) = frees s + blocks da). rewrite Hf, Hf3.
    change (frees s1 + blocks da = frees s + blocks da). by rewrite Hf1.
  - intros Hb. rewrite cells_upd_cells, lookup_delete_ne by done.
    rewrite cells_upd_descs, discard_cells_ne by done.
    unfold s3. rewrite swapped_cells_ne by done. unfold s2.
    rewrite cells_upd_descs, cells_upd_cells, lookup_insert_ne by done.
    rewrite Hcb. unfold s1, swapped. rewrite cells_upd_descs.
    destruct db; [done|]. simpl. apply lookup_insert_eq.
Qed.

Lemma assign_move_ok this rhs da db s :
  wf s → descs s !! this = Some da → descs s !! rhs = Some db → this ≠ rhs →
  ∃ s', assign_move this rhs s = Ret () s'
        ∧ wf s'
        ∧ descs s' = <[rhs := get_empty_func_descriptor]> (<[this := db]> (descs s))
        ∧ allocs s' = allocs s
        ∧ frees s' = frees s + blocks da
        ∧ (db ≠ get_empty_func_descriptor → cells s' !! this = cells s !! rhs).
Proof.
  intros Hwf Hda Hdb Hne.
  destruct (assign_move_ok_but (B := ∅) this rhs da db s)
    as (s' & Hrun & Hwf' & Hrest);
    try done; [by apply wf_but_empty|by eapply wf_storable_desc..|].
  exists s'. split; [done|]. split; [by apply wf_but_empty|done].
Qed.

(** [w = rhs] on two different wrappers. *)
Lemma assign_copy_ok_but {B} this rhs da db s :
  wf_but B s → descs s !! this = Some da → descs s !! rhs = Some db → this ≠ rhs →
  storable_desc da → storable_desc db →
  ∃ s', assign_copy this rhs s = Ret () s'
        ∧ wf_but B s'
        ∧ descs s' = <[this := db]> (descs s)
        ∧ allocs s' = allocs s + blocks db
        ∧ frees s' = frees s + blocks da.
Proof.
  intros Hwf Hda Hdb Hne Hsa Hsb. unfold assign_copy.
  rewrite bool_decide_true by done.
  step reflexivity. cbv beta. set (t := fresh (dom (cells s))).
  assert (Ht : t ∉ dom (descs s)) by by apply (fresh_loc_not_live_but (B := B)).
  assert (Htd : descs s !! t = None) by by apply not_elem_of_dom.
  assert (t ≠ this) as Htt by congruence.
  assert (t ≠ rhs) as Htr by congruence.
  (* function(rhs) *)
  destruct (function_copy_ok_but t rhs db s Hwf Ht Hdb Hsb) as [Hcopy Hwf1].
  set (s1 := install t _ _) in *.
  step (exact Hcopy).
  assert (Hd1 : descs s1 = <[t := db]> (descs s)).
  { unfold s1. by rewrite install_descs. }
  (* .swap( *this ) *)
  assert (Hdt1 : descs s1 !! t = Some db) by (rewrite Hd1; apply lookup_insert_eq).
  assert (Hdh1 : descs s1 !! this = Some da)
    by (by rewrite Hd1, lookup_insert_ne).
  destruct (swap_ok_but t this _ _ s1 Hwf1 Hdt1 Hdh1 Hsb Hsa)
    as (ct & ch & Hct & Hch & Hswap & Hwf2).
  set (s2 := swapped t this db da ct ch s1) in *.
  step (exact Hswap).
  (* the temporary is destroyed *)
  assert (Hdt2 : descs s2 !! t = Some da).
  { unfold s2. rewrite swapped_descs, lookup_insert_ne by done.
    apply lookup_insert_eq. }
  destruct (function_destroy_ok_but t da s2 Hwf2 Hdt2) as [Hdestroy Hwf3].
  eexists. split; [exact Hdestroy|]. split; [exact Hwf3|].
  destruct (discard_counts da t s2 (wfb_holds _ s2 Hwf2 _ _ Hdt2)) as [Ha Hf].
  destruct (swapped_counts t this db da ct ch s1) as [Ha2 Hf2].
  destruct (install_counts t db (payload s rhs db)
              (upd_descs <[t := db]> (upd_cells <[t := Indeterminate]> s))
              (holds_payload s rhs db (wfb_holds _ s Hwf _ _ Hdb))) as [Ha1 Hf1].
  split; [|split].
  - rewrite descs_upd_cells, descs_upd_descs, discard_descs.
    unfold s2. rewrite swapped_descs, Hd1.
    apply map_eq. intros i. rewrite ?lookup_delete, ?lookup_insert.
    repeat case_decide; congruence.
  - change (allocs (discard da t s2) = allocs s + blocks db).
    rewrite Ha. unfold s2. rewrite Ha2. unfold s1. by rewrite Ha1.
  - change (frees (discard da t s2) = frees s + blocks da).
    rewrite Hf. unfold s2. rewrite Hf2. unfold s1. by rewrite Hf1.
Qed.


(** Every statement in scope runs to a well-formed state in which the
    wrappers in scope are those the statement leaves. *)
Lemma exec_wf_but {B} o s :
  wf_but B s → in_scope storable (dom (descs s)) o →
  Forall (fun w => w ∉ B) (names o) →
  ∃ s', exec o s = Ret () s' ∧ wf_but B s'
        ∧ dom (descs s') = live_after o (dom (descs s)).
Proof.
  intros Hwf Hsc HB.
  destruct o as [w T val|w|w other|w other|w rhs|w rhs|w other|w];
    simpl in *.
  - destruct Hsc as [Hw HT]. eexists. split; [apply function_from_spec|].
    split; [by apply function_from_ok_but|].
    by rewrite install_descs, descs_upd_descs, dom_insert_L.
  - eexists. split; [apply function_default_spec|].
    split; [by apply function_default_ok_but|].
    by rewrite descs_upd_descs, dom_insert_L.
  - destruct Hsc as [Hw [d Hd]%elem_of_dom].
    apply Forall_cons in HB as [_ [HBo _]%Forall_cons].
    destruct (function_copy_ok_but w other d s Hwf Hw Hd
                (wf_storable_desc_but s other d Hwf HBo Hd)) as [Hrun Hwf'].
    eexists. split; [exact Hrun|]. split; [exact Hwf'|].
    by rewrite install_descs, descs_upd_descs, dom_insert_L.
  - destruct Hsc as [Hw [d Hd]%elem_of_dom].
    apply Forall_cons in HB as [_ [HBo _]%Forall_cons].
    destruct (function_move_ok_but w other d s Hwf Hw Hd
                (wf_storable_desc_but s other d Hwf HBo Hd))
      as (c & Hc & Hrun & Hwf').
    eexists. split; [exact Hrun|]. split; [exact Hwf'|].
    rewrite descs_upd_descs, relocate_descs, descs_upd_descs, descs_upd_cells.
    rewrite dom_insert_present, dom_insert_L; [done|].
    apply lookup_insert_is_Some. destruct (decide (w = other)); eauto.
  - destruct Hsc as [[da Hda]%elem_of_dom [db Hdb]%elem_of_dom].
    apply Forall_cons in HB as [HBw [HBr _]%Forall_cons].
    destruct (decide (w = rhs)) as [->|Hne].
    + exists s. split; [|done]. unfold assign_copy.
      by rewrite bool_decide_false by (intros H; by apply H).
    + destruct (assign_copy_ok_but w rhs da db s Hwf Hda Hdb Hne
                  (wf_storable_desc_but s w da Hwf HBw Hda)
                  (wf_storable_desc_but s rhs db Hwf HBr Hdb))
        as (s' & Hrun & Hwf' & Hd' & _).
      exists s'. split; [done|]. split; [done|].
      by rewrite Hd', dom_insert_present.
  - destruct Hsc as [[da Hda]%elem_of_dom [db Hdb]%elem_of_dom].
    apply Forall_cons in HB as [HBw [HBr _]%Forall_cons].
    destruct (decide (w = rhs)) as [->|Hne].
    + exists s. split; [|done]. unfold assign_move.
      by rewrite bool_decide_false by (intros H; by apply H).
    + destruct (assign_move_ok_but w rhs da db s Hwf Hda Hdb Hne
                  (wf_storable_desc_but s w da Hwf HBw Hda)
                  (wf_storable_desc_but s rhs db Hwf HBr Hdb))
        as (s' & Hrun & Hwf' & Hd' & _).
      exists s'. split; [done|]. split; [done|].
      rewrite Hd', !dom_insert_present; [done|done|].
      apply lookup_insert_is_Some. right. by rewrite Hdb.
  - destruct Hsc as [[da Hda]%elem_of_dom [db Hdb]%elem_of_dom].
    apply Forall_cons in HB as [HBw [HBo _]%Forall_cons].
    destruct (swap_ok_but w other da db s Hwf Hda Hdb
                (wf_storable_desc_but s w da Hwf HBw Hda)
                (wf_storable_desc_but s other db Hwf HBo Hdb))
      as (ca & cb & _ & _ & Hrun & Hwf').
    eexists. split; [exact Hrun|]. split; [exact Hwf'|].
    rewrite swapped_descs, !dom_insert_present; [done|done|].
    apply lookup_insert_is_Some. destruct (decide (w = other)); eauto.
  - apply elem_of_dom in Hsc as [d Hd].
    destruct (function_destroy_ok_but w d s Hwf Hd) as [Hrun Hwf'].
    eexists. split; [exact Hrun|]. split; [exact Hwf'|].
    by rewrite descs_upd_cells, descs_upd_descs, discard_descs, dom_delete_L.
Qed.

Lemma exec_wf o s :
  wf s → in_scope storable (dom (descs s)) o →
  ∃ s', exec o s = Ret () s' ∧ wf s'
        ∧ dom (descs s') = live_after o (dom (descs s)).
Proof.
  intros Hwf%wf_but_empty Hsc.
  destruct (exec_wf_but o s Hwf Hsc) as (s' & Hrun & Hwf' & Hdom).
  { apply Forall_forall. intros w _. apply not_elem_of_empty. }
  exists s'. split; [done|]. split; [by apply wf_but_empty|done].
Qed.

Lemma run_wf_but {B} ops s :
  wf_but B s → scoped storable (dom (descs s)) ops → apart B ops →
  ∃ s', run ops s = Ret () s' ∧ wf_but B s'.
Proof.
  revert s. induction ops as [|o ops IH]; intros s Hwf Hsc HB.
  - by exists s.
  - destruct Hsc as [Ho Hsc]. apply Forall_cons in HB as [HBo HB].
    destruct (exec_wf_but o s Hwf Ho HBo) as (s1 & Hrun & Hwf1 & Hdom).
    rewrite <- Hdom in Hsc.
    destruct (IH s1 Hwf1 Hsc HB) as (s' & Hrun' & Hwf').
    exists s'. split; [|done]. simpl. by rewrite (bind_Ret _ _ _ _ _ Hrun).
Qed.

Lemma run_wf ops s :
  wf s → scoped storable (dom (descs s)) ops →
  ∃ s', run ops s = Ret () s' ∧ wf s'.
Proof.
  intros Hwf%wf_but_empty Hsc.
  destruct (run_wf_but ops s Hwf Hsc) as (s' & Hrun & Hwf').
  { apply apart_empty. }
  exists s'. split; [done|]. by apply wf_but_empty.
Qed.

(** With no wrapper left, no block is left. *)
Lemma wf_no_leak_but {B} s :
  wf_but B s → descs s = ∅ → heap s = ∅ ∧ allocs s = frees s.
Proof.
  intros Hwf Hd. assert (heap s = ∅) as Hh.
  { apply map_empty. intros p. apply eq_None_not_Some. intros Hp.
    destruct (wfb_owned _ s Hwf p Hp) as (w & T & HT & _).
    by rewrite Hd, lookup_empty in HT. }
  split; [done|]. rewrite (wfb_count _ s Hwf), Hh, map_size_empty. lia.
Qed.

Lemma wf_no_leak s : wf s → descs s = ∅ → heap s = ∅ ∧ allocs s = frees s.
Proof. intros Hwf%wf_but_empty. by apply (wf_no_leak_but (B := ∅)). Qed.

(** ** Calling an empty wrapper *)

(** The source of a move assignment between two wrappers in a well-formed
    state is left with the empty table. *)
Lemma assign_move_source this rhs da db s :
  wf s → descs s !! this = Some da → descs s !! rhs = Some db → this ≠ rhs →
  ∃ s', assign_move this rhs s = Ret () s'
        ∧ descs s' !! rhs = Some get_empty_func_descriptor.
Proof.
  intros Hwf Hda Hdb Hne.
  destruct (assign_move_ok this rhs da db s Hwf Hda Hdb Hne)
    as (s' & Hrun & _ & Hd' & _).
  exists s'. split; [done|]. rewrite Hd'. apply lookup_insert_eq.
Qed.

(** C1. The [invoke] of the empty table throws [bad_function_call] for every
    cell and every argument list, so [operator()] throws on every wrapper
    whose [desc] is the empty table: a default-constructed one, the source
    of a move construction, and the source of a move assignment. *)
Theorem empty_wrapper_call_throws :
  (∀ src args s,
     invoke empty_func_descriptor src args s = Throw_bad_function_call s)
  ∧ (∀ this args s,
       descs s !! this = Some get_empty_func_descriptor →
       operator_call this args s = Throw_bad_function_call s)
  ∧ (∀ this args s,
       ∃ s', function_default this s = Ret () s'
             ∧ operator_call this args s' = Throw_bad_function_call s')
  ∧ (∀ this other args s s',
       function_move this other s = Ret () s' →
       operator_call other args s' = Throw_bad_function_call s')
  ∧ (∀ this rhs da db args s,
       wf s → descs s !! this = Some da → descs s !! rhs = Some db →
       this ≠ rhs →
       ∃ s', assign_move this rhs s = Ret () s'
             ∧ operator_call rhs args s' = Throw_bad_function_call s').
Proof.
  assert (Hcall : ∀ this args s,
             descs s !! this = Some get_empty_func_descriptor →
             operator_call this args s = Throw_bad_function_call s).
  { intros this args s H. unfold operator_call.
    by rewrite (bind_Ret _ _ _ _ _ (get_desc_Some _ _ _ H)). }
  split; [done|]. split; [done|]. split; [|split].
  - intros this args s. eexists. split; [reflexivity|].
    apply Hcall. simpl. apply lookup_insert_eq.
  - intros this other args s s' H. apply Hcall.
    by eapply function_move_source.
  - intros this rhs da db args s Hwf Hda Hdb Hne.
    destruct (assign_move_source this rhs da db s Hwf Hda Hdb Hne)
      as (s' & Hrun & Hd').
    exists s'. split; [done|]. by apply Hcall.
Qed.

(** ** [target] on an empty wrapper *)

(** C10. The empty table is no table of a type, its [get] returns the null
    pointer, and [target<T>] returns the null pointer on every wrapper whose
    [desc] is the empty table: a default-constructed one, the source of a
    move construction, and the source of a move assignment. *)
Theorem target_of_empty_is_null (T : tyid) :
  get_descriptor T ≠ get_empty_func_descriptor
  ∧ (∀ src s, get empty_func_descriptor src s = Ret nullptr s)
  ∧ (∀ this s,
       descs s !! this = Some get_empty_func_descriptor →
       target T this s = Ret nullptr s)
  ∧ (∀ this s,
       ∃ s', function_default this s = Ret () s'
             ∧ target T this s' = Ret nullptr s')
  ∧ (∀ this other s s',
       function_move this other s = Ret () s' →
       target T other s' = Ret nullptr s')
  ∧ (∀ this rhs da db s,
       wf s → descs s !! this = Some da → descs s !! rhs = Some db →
       this ≠ rhs →
       ∃ s', assign_move this rhs s = Ret () s'
             ∧ target T rhs s' = Ret nullptr s').
Proof.
  assert (Htarget : ∀ this s,
             descs s !! this = Some get_empty_func_descriptor →
             target T this s = Ret nullptr s).
  { intros this s H. unfold target.
    rewrite (bind_Ret _ _ _ _ _ (get_desc_Some _ _ _ H)).
    by rewrite bool_decide_true. }
  split; [done|]. split; [done|]. split; [done|]. split; [|split].
  - intros this s. eexists. split; [reflexivity|].
    apply Htarget. simpl. apply lookup_insert_eq.
  - intros this other s s' H. apply Htarget.
    by eapply function_move_source.
  - intros this rhs da db s Hwf Hda Hdb Hne.
    destruct (assign_move_source this rhs da db s Hwf Hda Hdb Hne)
      as (s' & Hrun & Hd').
    exists s'. split; [done|]. by apply Htarget.
Qed.

(** ** Copies *)

(** What [operator()] answers on a wrapper, from what it holds. *)
Lemma operator_call_payload this d args s :
  descs s !! this = Some d →
  answer_of (operator_call this args s) =
    match d with
    | get_empty_func_descriptor => Throws bad_function_call
    | get_descriptor T =>
        match payload s this d with
        | Some (_, v) => result_of (call_operator (types T) v args)
        | None => No_behaviour
        end
    end.
Proof.
  intros Hd. rewrite (operator_call_answer _ _ _ _ Hd). apply invoke_answer.
Qed.

Lemma payload_inline T l v s :
  fits_small T = true → cells s !! l = Some (Obj T v) →
  payload s l (get_descriptor T) = Some (T, v).
Proof. intros Hs Hc. simpl. by rewrite Hs, (live_at_storage _ _ _ _ Hc). Qed.

Lemma payload_boxed T l p v s :
  fits_small T = false →
  cells s !! l = Some (Ptr (to_heap p)) → heap s !! p = Some (Obj T v) →
  payload s l (get_descriptor T) = Some (T, v).
Proof. intros Hs Hc Hp. simpl. by rewrite Hs, Hc, (live_at_heap _ _ _ _ Hp). Qed.

(** C9. Copy construction from a wrapper that holds a [T] gives a wrapper
    with the same table and an object of its own of the same value: both
    answer every call alike, as the original did before; their [target]
    pointers differ; and after a client assigns a new value through the
    pointer of either one, that one answers by the new value and the other
    as before. *)
Theorem copy_is_independent (T : tyid) (this other : loc) (s : state) :
  descs s !! other = Some (get_descriptor T) →
  holds s other (get_descriptor T) → this ≠ other →
  ∃ s' v q_this q_other,
    function_copy this other s = Ret () s'
    ∧ descs s' !! this = Some (get_descriptor T)
    ∧ descs s' !! other = Some (get_descriptor T)
    ∧ payload s other (get_descriptor T) = Some (T, v)
    ∧ payload s' this (get_descriptor T) = Some (T, v)
    ∧ payload s' other (get_descriptor T) = Some (T, v)
    ∧ (∀ args,
         answer_of (operator_call other args s)
           = result_of (call_operator (types T) v args)
         ∧ answer_of (operator_call this args s')
           = result_of (call_operator (types T) v args)
         ∧ answer_of (operator_call other args s')
           = result_of (call_operator (types T) v args))
    ∧ target T this s' = Ret q_this s'
    ∧ target T other s' = Ret q_other s'
    ∧ q_this ≠ q_other
    ∧ (∀ v' args, ∃ s'',
         write_object T q_this v' s' = Ret () s''
         ∧ answer_of (operator_call this args s'')
           = result_of (call_operator (types T) v' args)
         ∧ answer_of (operator_call other args s'')
           = result_of (call_operator (types T) v args))
    ∧ (∀ v' args, ∃ s'',
         write_object T q_other v' s' = Ret () s''
         ∧ answer_of (operator_call other args s'')
           = result_of (call_operator (types T) v' args)
         ∧ answer_of (operator_call this args s'')
           = result_of (call_operator (types T) v args)).
Proof.
  intros Hd Hh Hne.
  pose proof (function_copy_spec this other _ s Hd Hh Hne) as Hrun.
  assert (Hcall : ∀ w u args s0,
            descs s0 !! w = Some (get_descriptor T) →
            payload s0 w (get_descriptor T) = Some (T, u) →
            answer_of (operator_call w args s0)
              = result_of (call_operator (types T) u args)).
  { intros w u args s0 Hw Hu.
    by rewrite (operator_call_payload _ _ _ _ Hw), Hu. }
  simpl in Hh. destruct (fits_small T) eqn:Hs.
  - (* the object is in the cell *)
    destruct Hh as [v Hv].
    pose proof (payload_inline T other v s Hs Hv) as Hpl.
    rewrite Hpl in Hrun. simpl in Hrun. rewrite Hs in Hrun.
    set (s' := upd_cells _ _) in Hrun.
    assert (Hdt : descs s' !! this = Some (get_descriptor T))
      by (simpl; apply lookup_insert_eq).
    assert (Hdo : descs s' !! other = Some (get_descriptor T))
      by (simpl; by rewrite lookup_insert_ne).
    assert (Hct : cells s' !! this = Some (Obj T v))
      by (simpl; apply lookup_insert_eq).
    assert (Hco : cells s' !! other = Some (Obj T v))
      by (simpl; by rewrite !lookup_insert_ne).
    exists s', v, (to_storage this), (to_storage other).
    split; [done|]. split; [done|]. split; [done|]. split; [done|].
    split; [by apply payload_inline|]. split; [by apply payload_inline|].
    split.
    { intros args. split; [by apply Hcall|].
      split; apply Hcall; try done; by apply payload_inline. }
    split; [by rewrite (target_same_type _ _ _ _ Hdt Hct), Hs|].
    split; [by rewrite (target_same_type _ _ _ _ Hdo Hco), Hs|].
    split; [congruence|]. split.
    + intros v' args. eexists. split.
      { unfold write_object. by rewrite (live_at_storage _ _ _ _ Hct). }
      split; apply Hcall; try done; apply payload_inline; try done; simpl.
      * apply lookup_insert_eq.
      * by rewrite !lookup_insert_ne.
    + intros v' args. eexists. split.
      { unfold write_object. by rewrite (live_at_storage _ _ _ _ Hco). }
      split; apply Hcall; try done; apply payload_inline; try done; simpl.
      * apply lookup_insert_eq.
      * rewrite lookup_insert_ne by done. apply lookup_insert_eq.
  - (* the object is in a block *)
    destruct Hh as (p & v & Hc & Hp).
    pose proof (payload_boxed T other p v s Hs Hc Hp) as Hpl.
    rewrite Hpl in Hrun. simpl in Hrun. rewrite Hs in Hrun.
    set (p' := fresh (dom (heap s))) in Hrun.
    assert (Hp' : p' ≠ p).
    { intros Heq. pose proof (fresh_heap_None s) as Hf. fold p' in Hf.
      rewrite Heq in Hf. congruence. }
    set (s' := upd_cells _ _) in Hrun.
    assert (Hdt : descs s' !! this = Some (get_descriptor T))
      by (simpl; apply lookup_insert_eq).
    assert (Hdo : descs s' !! other = Some (get_descriptor T))
      by (simpl; by rewrite lookup_insert_ne).
    assert (Hct : cells s' !! this = Some (Ptr (to_heap p')))
      by (simpl; apply lookup_insert_eq).
    assert (Hco : cells s' !! other = Some (Ptr (to_heap p)))
      by (simpl; by rewrite !lookup_insert_ne).
    assert (Hpt : heap s' !! p' = Some (Obj T v))
      by (simpl; apply lookup_insert_eq).
    assert (Hpo : heap s' !! p = Some (Obj T v))
      by (simpl; by rewrite lookup_insert_ne).
    exists s', v, (to_heap p'), (to_heap p).
    split; [done|]. split; [done|]. split; [done|]. split; [done|].
    split; [by eapply payload_boxed|]. split; [by eapply payload_boxed|].
    split.
    { intros args. split; [by apply Hcall|].
      split; apply Hcall; try done; by eapply payload_boxed. }
    split; [by rewrite (target_same_type _ _ _ _ Hdt Hct), Hs|].
    split; [by rewrite (target_same_type _ _ _ _ Hdo Hco), Hs|].
    split; [congruence|]. split.
    + intros v' args. eexists. split.
      { unfold write_object. by rewrite (live_at_heap _ _ _ _ Hpt). }
      split; apply Hcall; try done.
      * apply (payload_boxed T this p'); [done..|]. simpl.
        apply lookup_insert_eq.
      * apply (payload_boxed T other p); [done..|]. simpl.
        by rewrite lookup_insert_ne.
    + intros v' args. eexists. split.
      { unfold write_object. by rewrite (live_at_heap _ _ _ _ Hpo). }
      split; apply Hcall; try done.
      * apply (payload_boxed T other p); [done..|]. simpl.
        apply lookup_insert_eq.
      * apply (payload_boxed T this p'); [done..|]. simpl.
        by rewrite lookup_insert_ne.
Qed.

(** ** Moves of inline objects *)

(** What the [move] of the table of an inline [T] does from a cell with a
    live [T] into another cell: move assignment onto the target, then the
    destructor on the address read from the source cell, which holds no
    pointer. The effect is defined only for a trivial destructor, and for a
    target without a live [T] only with a trivial move assignment; the
    object in the source cell then is still live. *)
Lemma move_inline_spec T src dst v c0 s :
  fits_small T = true →
  cells s !! src = Some (Obj T v) → cells s !! dst = Some c0 → src ≠ dst →
  move (descriptor T) src dst s =
    if (bool_decide (is_Some (live_at T (to_storage dst) s))
        || is_trivially_move_assignable (types T))
       && is_trivially_destructible (types T)
    then Ret () (upd_cells <[dst := Obj T v]> s)
    else Undefined.
Proof.
  intros Hs Hsrc Hdst Hne. simpl. rewrite Hs. unfold bind at 1.
  unfold move_assign, bind at 1.
  rewrite (object_at_Some _ _ _ _ (live_at_storage _ _ _ _ Hsrc)).
  simpl. rewrite Hdst.
  destruct (bool_decide _ || is_trivially_move_assignable (types T)); [|done].
  erewrite bind_Ret; last first.
  { apply (ptr_from_storage_Some _ (Obj T v)). simpl.
    by rewrite lookup_insert_ne. }
  unfold destruct_at. rewrite live_at_wild.
  by destruct (is_trivially_destructible (types T)).
Qed.

(** With a destructor that is not trivial, move construction from a wrapper
    that holds an inline [T], and [swap] with one, have no defined
    behaviour. *)
Lemma function_move_inline_undefined this other T s :
  fits_small T = true → is_trivially_destructible (types T) = false →
  descs s !! other = Some (get_descriptor T) →
  holds s other (get_descriptor T) → this ≠ other →
  function_move this other s = Undefined.
Proof.
  intros Hs Hde Hd Hh Hne. simpl in Hh. rewrite Hs in Hh.
  destruct Hh as [v Hv]. unfold function_move.
  step reflexivity. step (by apply get_desc_Some). step reflexivity.
  apply bind_Undefined.
  rewrite (move_inline_spec T other this v Indeterminate); try done.
  - by rewrite Hde, andb_false_r.
  - simpl. by rewrite lookup_insert_ne.
  - simpl. apply lookup_insert_eq.
Qed.

Lemma swap_inline_undefined this other T s :
  fits_small T = true → is_trivially_destructible (types T) = false →
  descs s !! other = Some (get_descriptor T) →
  holds s other (get_descriptor T) →
  swap this other s = Undefined.
Proof.
  intros Hs Hde Hd Hh. simpl in Hh. rewrite Hs in Hh.
  destruct Hh as [v Hv]. pose proof (fresh_loc_None s) as Htmp.
  unfold swap. step reflexivity. cbv beta.
  set (tmp := fresh (dom (cells s))) in *.
  assert (other ≠ tmp) as Hne by congruence.
  step reflexivity. apply bind_Undefined.
  step (by apply get_desc_Some).
  rewrite (move_inline_spec T other tmp v Indeterminate); try done.
  - by rewrite Hde, andb_false_r.
  - simpl. by rewrite lookup_insert_ne.
  - simpl. apply lookup_insert_eq.
Qed.

(** X16. Move construction at a new address from a wrapper of a
    well-formed state, whose object is boxed or relocatable: the new wrapper
    has the table and the object of the source and answers every call as
    the source did; the source is empty, converts to false and throws on
    every call; destroying the source then touches no block and leaves the
    new wrapper what it holds. *)
Lemma function_move_transfers this other d s :
  wf s → this ∉ dom (descs s) → descs s !! other = Some d →
  ∃ s', function_move this other s = Ret () s' ∧ wf s'
        ∧ descs s' !! this = Some d
        ∧ descs s' !! other = Some get_empty_func_descriptor
        ∧ payload s' this d = payload s other d
        ∧ (∀ args, answer_of (operator_call this args s')
                   = answer_of (operator_call other args s))
        ∧ operator_bool other s' = Ret false s'
        ∧ (∀ args, operator_call other args s' = Throw_bad_function_call s')
        ∧ ∃ s'', function_destroy other s' = Ret () s'' ∧ wf s''
                 ∧ heap s'' = heap s' ∧ frees s'' = frees s'
                 ∧ payload s'' this d = payload s other d.
Proof.
  intros Hwf Hthis Hd.
  destruct (function_move_ok this other d s Hwf Hthis Hd)
    as (c & Hc & Hrun & Hwf').
  assert (this ≠ other) as Hne.
  { intros ->. apply Hthis. by eapply elem_of_dom_2. }
  pose proof (wf_holds s Hwf _ _ Hd) as Hh.
  set (s' := upd_descs _ _) in *.
  assert (Hdt : descs s' !! this = Some d).
  { unfold s'. rewrite descs_upd_descs, lookup_insert_ne by done.
    rewrite relocate_descs. simpl. apply lookup_insert_eq. }
  assert (Hdo : descs s' !! other = Some get_empty_func_descriptor).
  { unfold s'. rewrite descs_upd_descs. apply lookup_insert_eq. }
  assert (Hpl : payload s' this d = payload s other d).
  { destruct d as [|T]; [done|]. apply payload_agree; [done| |].
    - unfold s'. simpl. by rewrite lookup_insert_eq, Hc.
    - unfold s'. simpl. done. }
  exists s'. split; [done|]. split; [done|]. split; [done|]. split; [done|].
  split; [done|]. split.
  { intros args. rewrite (operator_call_payload _ _ _ _ Hdt),
      (operator_call_payload _ _ _ _ Hd). by rewrite Hpl. }
  split.
  { unfold operator_bool.
    rewrite (bind_Ret _ _ _ _ _ (get_desc_Some _ _ _ Hdo)).
    by rewrite bool_decide_false by (intros H; by apply H). }
  split.
  { intros args. unfold operator_call.
    by rewrite (bind_Ret _ _ _ _ _ (get_desc_Some _ _ _ Hdo)). }
  destruct (function_destroy_ok other _ s' Hwf' Hdo) as [Hdes Hwf''].
  eexists. split; [exact Hdes|]. split; [exact Hwf''|].
  split; [done|]. split; [done|].
  rewrite <- Hpl. apply payload_agree; [by apply (wf_holds s' Hwf')| |done].
  rewrite cells_upd_cells, lookup_delete_ne by done. done.
Qed.

(** X15. [swap] of two different wrappers of a well-formed state, whose
    objects are boxed or relocatable, in every combination of inline, boxed
    and empty: the tables are exchanged, each wrapper holds what the other
    held and answers every call as the other did, and the heap and the
    counters are as before. *)
Lemma swap_exchanges this other da db s :
  wf s → descs s !! this = Some da → descs s !! other = Some db →
  this ≠ other →
  ∃ s', swap this other s = Ret () s' ∧ wf s'
        ∧ descs s' !! this = Some db ∧ descs s' !! other = Some da
        ∧ payload s' this db = payload s other db
        ∧ payload s' other da = payload s this da
        ∧ (∀ args, answer_of (operator_call this args s')
                   = answer_of (operator_call other args s)
                   ∧ answer_of (operator_call other args s')
                     = answer_of (operator_call this args s))
        ∧ heap s' = heap s ∧ allocs s' = allocs s ∧ frees s' = frees s.
Proof.
  intros Hwf Hda Hdb Hne.
  destruct (swap_ok this other da db s Hwf Hda Hdb)
    as (ca & cb & Hca & Hcb & Hrun & Hwf').
  destruct (swapped_payload this other da db ca cb s Hne Hca Hcb
              (wf_holds s Hwf _ _ Hda) (wf_holds s Hwf _ _ Hdb)) as [Hpt Hpo].
  destruct (swapped_counts this other da db ca cb s) as [Ha Hf].
  set (s' := swapped this other da db ca cb s) in *.
  assert (Hdt : descs s' !! this = Some db).
  { unfold s'. rewrite swapped_descs, lookup_insert_ne by done.
    apply lookup_insert_eq. }
  assert (Hdo : descs s' !! other = Some da).
  { unfold s'. rewrite swapped_descs. apply lookup_insert_eq. }
  exists s'. split; [done|]. split; [done|]. split; [done|]. split; [done|].
  split; [done|]. split; [done|]. split.
  { intros args.
    rewrite (operator_call_payload _ _ _ _ Hdt),
      (operator_call_payload _ _ _ _ Hdo),
      (operator_call_payload _ _ _ _ Hda),
      (operator_call_payload _ _ _ _ Hdb).
    by rewrite Hpt, Hpo. }
  split; [apply swapped_heap|done].
Qed.

(** ** What a wrapper holds when other objects come and go *)

Lemma holds_cell s l d : holds s l d → is_Some (cells s !! l).
Proof.
  destruct d as [|T]; [done|]. simpl. destruct (fits_small T).
  - intros [v ->]. done.
  - intros (p & v & -> & _). done.
Qed.

Lemma payload_kept s s' l d :
  holds s' l d → cells s' !! l = cells s !! l →
  (∀ p x, heap s' !! p = Some x → heap s !! p = Some x) →
  payload s' l d = payload s l d.
Proof.
  intros Hh Hc Hsub. destruct d as [|T]; [done|]. simpl in *.
  destruct (fits_small T); unfold live_at; simpl; rewrite <- Hc; [done|].
  destruct Hh as (p & v & -> & Hp). simpl. by rewrite Hp, (Hsub _ _ Hp).
Qed.

Lemma payload_grown s s' l d :
  holds s l d → cells s' !! l = cells s !! l →
  (∀ p x, heap s !! p = Some x → heap s' !! p = Some x) →
  payload s' l d = payload s l d.
Proof.
  intros Hh Hc Hsub. destruct d as [|T]; [done|]. simpl in *.
  destruct (fits_small T); unfold live_at; simpl; rewrite Hc; [done|].
  destruct Hh as (p & v & -> & Hp). simpl. by rewrite Hp, (Hsub _ _ Hp).
Qed.

Lemma install_payload l T v s :
  payload (install l (Some (T, v)) s) l (get_descriptor T) = Some (T, v).
Proof.
  unfold install. destruct (fits_small T) eqn:Hs.
  - apply payload_inline; [done|]. simpl. apply lookup_insert_eq.
  - eapply payload_boxed; [done| |]; simpl; apply lookup_insert_eq.
Qed.

Lemma install_cells_ne l w pl s :
  w ≠ l → cells (install l pl s) !! w = cells s !! w.
Proof.
  intros Hne. destruct pl as [[T v]|]; [|done]. simpl.
  destruct (fits_small T); simpl; by rewrite lookup_insert_ne.
Qed.

Lemma install_heap_grown l pl s p x :
  heap s !! p = Some x → heap (install l pl s) !! p = Some x.
Proof.
  intros Hp. destruct pl as [[T v]|]; [|done]. simpl.
  destruct (fits_small T); simpl; [done|]. rewrite lookup_insert_ne; [done|].
  intros Heq. pose proof (fresh_heap_None s) as Hf. rewrite Heq in Hf.
  congruence.
Qed.

Lemma discard_heap_kept d l s p x :
  heap (discard d l s) !! p = Some x → heap s !! p = Some x.
Proof.
  destruct d as [|T]; [done|]. simpl. destruct (fits_small T); [done|].
  destruct (cells s !! l) as [[| |[]]|]; try done. simpl.
  by intros [_ ?]%lookup_delete_Some.
Qed.

(** ** Assignment, from what the two wrappers hold *)


Lemma boxed_storable T : fits_small T = false → storable T.
Proof. unfold storable. congruence. Qed.




(** ** Boxed payloads *)


(** * Further properties of the member functions *)

(** ** Calls and the boolean conversion *)

Lemma operator_bool_spec this d s :
  descs s !! this = Some d →
  operator_bool this s = Ret (bool_decide (d ≠ get_empty_func_descriptor)) s.
Proof. intros Hd. unfold operator_bool. by step (by apply get_desc_Some). Qed.





(** X1. On a live wrapper [operator bool] is false exactly when [desc] is
    the empty table. When it is false every call throws
    [bad_function_call] and leaves the state as it is; when it is true a
    call throws only what the call operator of the held object throws for
    these arguments. *)
Theorem bool_tells_whether_call_throws (this : loc) (d : desc_ptr) (s : state) :
  descs s !! this = Some d →
  ∃ b, operator_bool this s = Ret b s
       ∧ (b = false ↔ d = get_empty_func_descriptor)
       ∧ (b = false →
          ∀ args, operator_call this args s = Throw_bad_function_call s)
       ∧ (b = true →
          ∀ args e s', operator_call this args s = Throw e s' →
            ∃ T v v', d = get_descriptor T
                      ∧ payload s this d = Some (T, v)
                      ∧ call_operator (types T) v args = Throwing e v').
Proof.
  intros Hd. eexists. split; [by apply operator_bool_spec|].
  destruct d as [|T].
  - rewrite bool_decide_false by (intros H; by apply H).
    split; [done|]. split; [|done]. intros _ args. unfold operator_call.
    by step (by apply get_desc_Some).
  - rewrite bool_decide_true by done. split; [done|]. split; [done|].
    intros _ args e s' H.
    pose proof (operator_call_payload this _ args s Hd) as Ha.
    rewrite H in Ha. unfold answer_of in Ha. exists T.
    destruct (payload s this (get_descriptor T)) as [[U v]|] eqn:Hpl; [|done].
    assert (U = T) as ->.
    { revert Hpl. simpl. destruct (fits_small T).
      - destruct (live_at T _ s); by intros [= <-].
      - destruct (cells s !! this) as [[| |q]|]; try done.
        destruct (live_at T q s); by intros [= <-]. }
    exists v. destruct (call_operator (types T) v args) as [r v'|e' v'|];
      try done. exists v'. by injection Ha as <-.
Qed.

(** ** Binding *)

Lemma function_from_holds this T val s :
  ∃ s', function_from this T val s = Ret () s'
        ∧ descs s' !! this = Some (get_descriptor T)
        ∧ holds s' this (get_descriptor T)
        ∧ payload s' this (get_descriptor T) = Some (T, val).
Proof.
  destruct (fits_small T) eqn:Hs.
  - eexists. split; [by apply function_from_small|].
    assert (Hc : ∀ m : gmap loc content,
              <[this := Obj T val]> m !! this = Some (Obj T val))
      by (intros m; apply lookup_insert_eq).
    split; [simpl; apply lookup_insert_eq|]. split.
    + simpl. rewrite Hs. eexists. apply Hc.
    + apply payload_inline; [done|]. apply Hc.
  - eexists. split; [by apply function_from_boxed|].
    split; [simpl; apply lookup_insert_eq|]. split.
    + simpl. rewrite Hs. eexists _, _. by rewrite !lookup_insert_eq.
    + eapply payload_boxed; [done| |]; simpl; apply lookup_insert_eq.
Qed.



(** ** Destruction *)

Lemma discard_heap d l s :
  holds s l d →
  heap (discard d l s) =
    match d, cells s !! l with
    | get_descriptor T, Some (Ptr (to_heap p)) =>
        if fits_small T then heap s else delete p (heap s)
    | _, _ => heap s
    end.
Proof.
  destruct d as [|T]; [done|]. simpl. destruct (fits_small T) eqn:Hs.
  - intros [v ->]. done.
  - intros (p & v & -> & _). done.
Qed.

(** X4. The destructor is defined on every wrapper whose cell holds what
    its table expects, of whatever type: the wrapper and its cell are gone,
    no other wrapper or cell is touched, nothing is allocated, and a block
    is released exactly when the object was boxed, that block. *)
Theorem destructor_releases_what_it_holds (this : loc) (d : desc_ptr)
    (s : state) :
  descs s !! this = Some d → holds s this d →
  ∃ s', function_destroy this s = Ret () s'
        ∧ descs s' = delete this (descs s)
        ∧ cells s' = delete this (cells s)
        ∧ allocs s' = allocs s
        ∧ frees s' = frees s + blocks d
        ∧ (blocks d = 0 → heap s' = heap s)
        ∧ (∀ p, owns s this p → heap s' = delete p (heap s)).
Proof.
  intros Hd Hh. eexists. split; [by apply function_destroy_spec|].
  destruct (discard_counts d this s Hh) as [Ha Hf].
  split; [by rewrite descs_upd_cells, descs_upd_descs, discard_descs|].
  split.
  { rewrite cells_upd_cells, cells_upd_descs. apply map_eq. intros i.
    destruct (decide (i = this)) as [->|Hne].
    - by rewrite !lookup_delete_eq.
    - by rewrite !lookup_delete_ne, discard_cells_ne. }
  split; [exact Ha|]. split; [exact Hf|].
  change (heap (upd_cells (delete this)
            (upd_descs (delete this) (discard d this s))))
    with (heap (discard d this s)).
  rewrite (discard_heap d this s Hh). split.
  - destruct d as [|T]; [done|]. simpl.
    destruct (fits_small T); [|done]. by destruct (cells s !! this) as [[| |[]]|].
  - intros p (T & HT & Hs & Hc). rewrite Hd in HT. injection HT as ->.
    by rewrite Hc, Hs.
Qed.

(** X3. Constructing a wrapper at a new address and destroying it gives
    back the cells, the wrappers and the heap there were; a boxed type costs
    one allocation and one release, an inline type none. *)
Theorem construct_then_destroy_restores (this : loc) (T : tyid) (val : value)
    (s : state) :
  cells s !! this = None → descs s !! this = None →
  ∃ s1 s2,
    function_from this T val s = Ret () s1
    ∧ function_destroy this s1 = Ret () s2
    ∧ cells s2 = cells s ∧ descs s2 = descs s ∧ heap s2 = heap s
    ∧ allocs s2 = allocs s + blocks (get_descriptor T)
    ∧ frees s2 = frees s + blocks (get_descriptor T).
Proof.
  intros Hc Hd. pose proof (fresh_heap_None s) as Hp.
  destruct (function_from_holds this T val s) as (s1 & Hrun & Hd1 & Hh1 & _).
  exists s1. eexists. split; [done|].
  split; [by apply function_destroy_spec|].
  rewrite function_from_spec in Hrun. injection Hrun as <-.
  simpl. destruct (fits_small T) eqn:Hs; simpl.
  - rewrite !delete_insert_eq. rewrite !delete_id by done.
    repeat split; lia.
  - rewrite lookup_insert_eq. simpl.
    rewrite !delete_insert_eq. rewrite !delete_id by done.
    repeat split; lia.
Qed.

(** ** Construction from an empty wrapper *)

(** X5. Copy construction and move construction from an empty wrapper are
    default construction: the new wrapper is empty, the source stays empty,
    and the heap is not touched. *)
Theorem construct_from_empty_is_default (this other : loc) (s : state) :
  descs s !! other = Some get_empty_func_descriptor →
  function_copy this other s = function_default this s
  ∧ function_move this other s = function_default this s.
Proof.
  intros Hd. split.
  - unfold function_copy. step reflexivity. step (by apply get_desc_Some).
    by step reflexivity.
  - unfold function_move. step reflexivity. step (by apply get_desc_Some).
    step reflexivity. step reflexivity.
    rewrite function_default_spec. unfold set_desc, modify. f_equal.
    unfold upd_descs, upd_cells. simpl. f_equal.
    destruct (decide (other = this)) as [->|Hne].
    + by rewrite insert_insert_eq.
    + apply insert_id. by rewrite lookup_insert_ne.
Qed.

(** ** Assignment between two wrappers *)

(** What a wrapper other than the destroyed one holds after a destruction
    in a well-formed state. *)
Lemma destroyed_payload t w dt d s :
  wf s → descs s !! t = Some dt → descs s !! w = Some d → w ≠ t →
  payload (upd_cells (delete t) (upd_descs (delete t) (discard dt t s))) w d
    = payload s w d.
Proof.
  intros Hwf Ht Hw Hne. apply payload_kept.
  - apply (wf_holds _ (wf_destroyed t dt s Hwf Ht)).
    rewrite descs_upd_cells, descs_upd_descs, discard_descs.
    by rewrite lookup_delete_ne.
  - rewrite cells_upd_cells, lookup_delete_ne by done.
    by rewrite cells_upd_descs, discard_cells_ne.
  - intros p x. apply discard_heap_kept.
Qed.

Lemma answers_by_payload this other d s s' :
  descs s' !! this = Some d → descs s !! other = Some d →
  payload s' this d = payload s other d →
  ∀ args, answer_of (operator_call this args s')
          = answer_of (operator_call other args s).
Proof.
  intros Hd' Hd Hpl args.
  rewrite (operator_call_payload _ _ _ _ Hd'),
    (operator_call_payload _ _ _ _ Hd).
  destruct d; [done|]. by rewrite Hpl.
Qed.

(** X6. Copy assignment [w = rhs] between two different wrappers of a
    well-formed state: afterwards [w] has the table of [rhs] and an object of
    the same value, and answers every call as [rhs] did; [rhs] holds and
    answers what it did; no other wrapper changes its table; one block is
    allocated when [rhs] is boxed and the block [w] owned is released. *)
Theorem copy_assignment_copies (this rhs : loc) (da db : desc_ptr) (s : state) :
  wf s → descs s !! this = Some da → descs s !! rhs = Some db → this ≠ rhs →
  ∃ s', assign_copy this rhs s = Ret () s'
        ∧ wf s'
        ∧ descs s' = <[this := db]> (descs s)
        ∧ payload s' this db = payload s rhs db
        ∧ payload s' rhs db = payload s rhs db
        ∧ (∀ args, answer_of (operator_call this args s')
                   = answer_of (operator_call rhs args s))
        ∧ (∀ args, answer_of (operator_call rhs args s')
                   = answer_of (operator_call rhs args s))
        ∧ allocs s' = allocs s + blocks db
        ∧ frees s' = frees s + blocks da.
Proof.
  intros Hwf Hda Hdb Hne. unfold assign_copy.
  rewrite bool_decide_true by done.
  step reflexivity. cbv beta. set (t := fresh (dom (cells s))).
  assert (Ht : t ∉ dom (descs s)) by by apply fresh_loc_not_live.
  assert (Htd : descs s !! t = None) by by apply not_elem_of_dom.
  assert (t ≠ this) as Htt by congruence.
  assert (t ≠ rhs) as Htr by congruence.
  pose proof (wf_holds s Hwf _ _ Hdb) as Hhb.
  (* function(rhs) *)
  destruct (function_copy_ok t rhs db s Hwf Ht Hdb) as [Hcopy Hwf1].
  set (s0 := upd_descs <[t := db]> (upd_cells <[t := Indeterminate]> s)) in *.
  set (s1 := install t (payload s rhs db) s0) in *.
  step (exact Hcopy).
  assert (Hd1 : descs s1 = <[t := db]> (descs s)).
  { unfold s1. by rewrite install_descs. }
  assert (Hdt1 : descs s1 !! t = Some db) by (rewrite Hd1; apply lookup_insert_eq).
  assert (Hdh1 : descs s1 !! this = Some da)
    by (by rewrite Hd1, lookup_insert_ne).
  assert (Hdr1 : descs s1 !! rhs = Some db)
    by (by rewrite Hd1, lookup_insert_ne).
  assert (Hp1t : payload s1 t db = payload s rhs db).
  { unfold s1. pose proof (holds_payload s rhs db Hhb) as Hpl.
    destruct db as [|T]; [done|]. destruct Hpl as [v Hv]. rewrite Hv.
    apply install_payload. }
  assert (Hp1r : payload s1 rhs db = payload s rhs db).
  { apply payload_grown; [done| |].
    - unfold s1. rewrite install_cells_ne by done. unfold s0.
      rewrite cells_upd_descs, cells_upd_cells. by rewrite lookup_insert_ne.
    - intros p x Hp. unfold s1. by apply install_heap_grown. }
  (* .swap( *this ) *)
  destruct (swap_ok t this _ _ s1 Hwf1 Hdt1 Hdh1)
    as (ct & ch & Hct & Hch & Hswap & Hwf2).
  destruct (swapped_payload t this db da ct ch s1 Htt Hct Hch
              (wf_holds s1 Hwf1 _ _ Hdt1) (wf_holds s1 Hwf1 _ _ Hdh1))
    as [_ Hp2h].
  set (s2 := swapped t this db da ct ch s1) in *.
  step (exact Hswap).
  assert (Hd2 : descs s2 = <[this := db]> (<[t := da]> (descs s1)))
    by apply swapped_descs.
  assert (Hdt2 : descs s2 !! t = Some da).
  { rewrite Hd2, lookup_insert_ne by done. apply lookup_insert_eq. }
  assert (Hdh2 : descs s2 !! this = Some db)
    by (rewrite Hd2; apply lookup_insert_eq).
  assert (Hdr2 : descs s2 !! rhs = Some db).
  { by rewrite Hd2, !lookup_insert_ne. }
  assert (Hp2r : payload s2 rhs db = payload s1 rhs db).
  { apply payload_agree; [by apply (wf_holds s1 Hwf1)| |apply swapped_heap].
    unfold s2. by rewrite swapped_cells_ne. }
  (* the temporary is destroyed *)
  destruct (function_destroy_ok t da s2 Hwf2 Hdt2) as [Hdestroy Hwf3].
  eexists. split; [exact Hdestroy|]. split; [exact Hwf3|].
  destruct (discard_counts da t s2 (wf_holds s2 Hwf2 _ _ Hdt2)) as [Ha Hf].
  destruct (swapped_counts t this db da ct ch s1) as [Ha2 Hf2].
  destruct (install_counts t db (payload s rhs db) s0
              (holds_payload s rhs db Hhb)) as [Ha1 Hf1].
  fold s1 in Ha1, Hf1. fold s2 in Ha2, Hf2.
  assert (Hd3 : descs (upd_cells (delete t)
                   (upd_descs (delete t) (discard da t s2)))
                = <[this := db]> (descs s)).
  { rewrite descs_upd_cells, descs_upd_descs, discard_descs, Hd2, Hd1.
    apply map_eq. intros i. rewrite ?lookup_delete, ?lookup_insert.
    repeat case_decide; congruence. }
  assert (Hp3h : payload (upd_cells (delete t)
                    (upd_descs (delete t) (discard da t s2))) this db
                 = payload s rhs db).
  { rewrite (destroyed_payload t this da db s2) by done. congruence. }
  assert (Hp3r : payload (upd_cells (delete t)
                    (upd_descs (delete t) (discard da t s2))) rhs db
                 = payload s rhs db).
  { rewrite (destroyed_payload t rhs da db s2) by done. congruence. }
  split; [exact Hd3|]. split; [exact Hp3h|]. split; [exact Hp3r|].
  split.
  { apply (answers_by_payload this rhs db); [|done..].
    rewrite Hd3. apply lookup_insert_eq. }
  split.
  { apply (answers_by_payload rhs rhs db); [|done..].
    by rewrite Hd3, lookup_insert_ne. }
  split.
  - change (allocs (discard da t s2) = allocs s + blocks db).
    rewrite Ha, Ha2. exact Ha1.
  - change (frees (discard da t s2) = frees s + blocks da).
    rewrite Hf, Hf2. by rewrite Hf1.
Qed.

(** X7. Move assignment [w = std::move(rhs)] between two different wrappers
    of a well-formed state: afterwards [w] has the table [rhs] had and the
    object [rhs] held, and answers every call as [rhs] did; [rhs] is empty;
    no other wrapper changes its table; nothing is allocated and the block
    [w] owned is released. *)
Theorem move_assignment_moves (this rhs : loc) (da db : desc_ptr) (s : state) :
  wf s → descs s !! this = Some da → descs s !! rhs = Some db → this ≠ rhs →
  ∃ s', assign_move this rhs s = Ret () s'
        ∧ wf s'
        ∧ descs s' = <[rhs := get_empty_func_descriptor]>
                       (<[this := db]> (descs s))
        ∧ payload s' this db = payload s rhs db
        ∧ (∀ args, answer_of (operator_call this args s')
                   = answer_of (operator_call rhs args s))
        ∧ operator_bool rhs s' = Ret false s'
        ∧ allocs s' = allocs s
        ∧ frees s' = frees s + blocks da.
Proof.
  intros Hwf Hda Hdb Hne. unfold assign_move.
  rewrite bool_decide_true by done.
  (* swap(rhs) *)
  destruct (swap_ok this rhs da db s Hwf Hda Hdb)
    as (ca & cb & Hca & Hcb & Hswap1 & Hwf1).
  destruct (swapped_payload this rhs da db ca cb s Hne Hca Hcb
              (wf_holds s Hwf _ _ Hda) (wf_holds s Hwf _ _ Hdb)) as [Hp1 _].
  destruct (swapped_counts this rhs da db ca cb s) as [Ha1 Hf1].
  set (s1 := swapped this rhs da db ca cb s) in *.
  step (exact Hswap1).
  assert (Hd1 : descs s1 = <[rhs := da]> (<[this := db]> (descs s)))
    by apply swapped_descs.
  assert (Hdh1 : descs s1 !! this = Some db).
  { rewrite Hd1, lookup_insert_ne by done. apply lookup_insert_eq. }
  (* function() *)
  step reflexivity. cbv beta. set (t := fresh (dom (cells s1))).
  assert (Ht : t ∉ dom (descs s1)) by by apply fresh_loc_not_live.
  assert (descs s !! t = None ∧ t ≠ this ∧ t ≠ rhs) as (Htd & Htt & Htr).
  { rewrite Hd1, !dom_insert_L in Ht. apply not_elem_of_union in Ht as [Hr Ht].
    apply not_elem_of_union in Ht as [Hth Ht].
    apply not_elem_of_singleton in Hr, Hth. by apply not_elem_of_dom in Ht. }
  pose proof (function_default_ok t s1 Hwf1 Ht) as Hwf2.
  step (apply function_default_spec).
  set (s2 := upd_descs <[t := get_empty_func_descriptor]>
               (upd_cells <[t := Indeterminate]> s1)) in *.
  assert (Hdt2 : descs s2 !! t = Some get_empty_func_descriptor)
    by (unfold s2; rewrite descs_upd_descs; apply lookup_insert_eq).
  assert (Hdr2 : descs s2 !! rhs = Some da).
  { unfold s2. rewrite descs_upd_descs, lookup_insert_ne by done.
    rewrite descs_upd_cells, Hd1. apply lookup_insert_eq. }
  assert (Hdh2 : descs s2 !! this = Some db).
  { unfold s2. rewrite descs_upd_descs, lookup_insert_ne by done.
    by rewrite descs_upd_cells. }
  assert (Hp2 : payload s2 this db = payload s1 this db).
  { apply payload_agree; [by apply (wf_holds s1 Hwf1)| |done].
    unfold s2. rewrite cells_upd_descs, cells_upd_cells.
    by rewrite lookup_insert_ne. }
  (* .swap(rhs) *)
  destruct (swap_ok t rhs _ _ s2 Hwf2 Hdt2 Hdr2)
    as (ct & cr & Hct & Hcr & Hswap2 & Hwf3).
  destruct (swapped_counts t rhs get_empty_func_descriptor da ct cr s2)
    as [Ha3 Hf3].
  set (s3 := swapped t rhs get_empty_func_descriptor da ct cr s2) in *.
  step (exact Hswap2).
  assert (Hd3 : descs s3 = <[rhs := get_empty_func_descriptor]>
                             (<[t := da]> (descs s2)))
    by apply swapped_descs.
  assert (Hdt3 : descs s3 !! t = Some da).
  { rewrite Hd3, lookup_insert_ne by done. apply lookup_insert_eq. }
  assert (Hdh3 : descs s3 !! this = Some db).
  { by rewrite Hd3, !lookup_insert_ne. }
  assert (Hp3 : payload s3 this db = payload s2 this db).
  { apply payload_agree; [by apply (wf_holds s2 Hwf2)| |apply swapped_heap].
    unfold s3. by rewrite swapped_cells_ne. }
  (* the temporary is destroyed *)
  destruct (function_destroy_ok t da s3 Hwf3 Hdt3) as [Hdestroy Hwf4].
  eexists. split; [exact Hdestroy|]. split; [exact Hwf4|].
  destruct (discard_counts da t s3 (wf_holds s3 Hwf3 _ _ Hdt3)) as [Ha Hf].
  assert (Hd4 : descs (upd_cells (delete t)
                   (upd_descs (delete t) (discard da t s3)))
                = <[rhs := get_empty_func_descriptor]>
                    (<[this := db]> (descs s))).
  { rewrite descs_upd_cells, descs_upd_descs, discard_descs, Hd3.
    unfold s2. rewrite descs_upd_descs, descs_upd_cells, Hd1.
    apply map_eq. intros i. rewrite ?lookup_delete, ?lookup_insert.
    repeat case_decide; congruence. }
  assert (Hp4 : payload (upd_cells (delete t)
                   (upd_descs (delete t) (discard da t s3))) this db
                = payload s rhs db).
  { rewrite (destroyed_payload t this da db s3) by done. congruence. }
  split; [exact Hd4|]. split; [exact Hp4|]. split.
  { apply (answers_by_payload this rhs db); [|done..].
    rewrite Hd4, lookup_insert_ne by done. apply lookup_insert_eq. }
  split.
  { erewrite operator_bool_spec; [|rewrite Hd4; apply lookup_insert_eq].
    by rewrite bool_decide_false by (intros H; by apply H). }
  split.
  - change (allocs (discard da t s3) = allocs s). rewrite Ha, Ha3.
    change (allocs s1 = allocs s). exact Ha1.
  - change (frees (discard da t s3) = frees s + blocks da). rewrite Hf, Hf3.
    change (frees s1 + blocks da = frees s + blocks da). by rewrite Hf1.
Qed.

(** ** More on [swap] *)

(** X10. [w.swap(w)] on a wrapper that holds what its table expects, boxed
    or relocatable, returns and leaves the whole program state as it was. *)
Theorem self_swap_is_identity (w : loc) (d : desc_ptr) (s : state) :
  descs s !! w = Some d → holds s w d → storable_desc d →
  swap w w s = Ret () s.
Proof.
  intros Hd Hh Hst. destruct (holds_cell s w d Hh) as [c Hc].
  rewrite (swap_spec w w d d c c s) by done. f_equal.
  unfold swapped. destruct s as [cs ds hp na nf]. simpl in *.
  destruct d; unfold relocate, upd_descs, upd_cells; simpl; f_equal;
    rewrite ?insert_insert_eq; by apply insert_id.
Qed.

(** X9. [a.swap(b)] and [b.swap(a)] are the same operation: on two wrappers
    of a well-formed state both return, with the same program state. *)
Theorem swap_is_symmetric (this other : loc) (da db : desc_ptr) (s : state) :
  wf s → descs s !! this = Some da → descs s !! other = Some db →
  ∃ s', swap this other s = Ret () s' ∧ swap other this s = Ret () s'.
Proof.
  intros Hwf Hda Hdb.
  destruct (swap_ok this other da db s Hwf Hda Hdb)
    as (ca & cb & Hca & Hcb & Hrun & _).
  destruct (swap_ok other this db da s Hwf Hdb Hda)
    as (cb' & ca' & Hcb' & Hca' & Hrun' & _).
  assert (ca' = ca) as -> by congruence.
  assert (cb' = cb) as -> by congruence.
  eexists. split; [exact Hrun|]. rewrite Hrun'. f_equal.
  destruct (decide (this = other)) as [->|Hne].
  { assert (da = db) as -> by congruence. by assert (ca = cb) as -> by congruence. }
  unfold swapped. destruct s as [cs ds hp na nf].
  destruct da, db; unfold relocate, upd_descs, upd_cells; simpl; f_equal;
    by rewrite insert_insert_ne.
Qed.

(** X8. Swapping two different wrappers of a well-formed state twice gives
    back what there was: the tables of all wrappers, what the two hold and
    answer, the heap and the counters. *)
Theorem swap_twice_restores (this other : loc) (da db : desc_ptr) (s : state) :
  wf s → descs s !! this = Some da → descs s !! other = Some db →
  this ≠ other →
  ∃ s1 s2,
    swap this other s = Ret () s1
    ∧ swap this other s1 = Ret () s2
    ∧ wf s2
    ∧ descs s2 = descs s
    ∧ payload s2 this da = payload s this da
    ∧ payload s2 other db = payload s other db
    ∧ (∀ args, answer_of (operator_call this args s2)
               = answer_of (operator_call this args s))
    ∧ (∀ args, answer_of (operator_call other args s2)
               = answer_of (operator_call other args s))
    ∧ heap s2 = heap s ∧ allocs s2 = allocs s ∧ frees s2 = frees s.
Proof.
  intros Hwf Hda Hdb Hne.
  destruct (swap_ok this other da db s Hwf Hda Hdb)
    as (ca & cb & Hca & Hcb & Hrun1 & Hwf1).
  destruct (swapped_payload this other da db ca cb s Hne Hca Hcb
              (wf_holds s Hwf _ _ Hda) (wf_holds s Hwf _ _ Hdb)) as [Hp1t Hp1o].
  destruct (swapped_counts this other da db ca cb s) as [Ha1 Hf1].
  pose proof (swapped_heap this other da db ca cb s) as Hh1.
  pose proof (swapped_descs this other da db ca cb s) as Hd1.
  set (s1 := swapped this other da db ca cb s) in *.
  assert (Hdt1 : descs s1 !! this = Some db).
  { rewrite Hd1, lookup_insert_ne by done. apply lookup_insert_eq. }
  assert (Hdo1 : descs s1 !! other = Some da)
    by (rewrite Hd1; apply lookup_insert_eq).
  destruct (swap_ok this other db da s1 Hwf1 Hdt1 Hdo1)
    as (ca1 & cb1 & Hca1 & Hcb1 & Hrun2 & Hwf2).
  destruct (swapped_payload this other db da ca1 cb1 s1 Hne Hca1 Hcb1
              (wf_holds s1 Hwf1 _ _ Hdt1) (wf_holds s1 Hwf1 _ _ Hdo1))
    as [Hp2t Hp2o].
  destruct (swapped_counts this other db da ca1 cb1 s1) as [Ha2 Hf2].
  pose proof (swapped_heap this other db da ca1 cb1 s1) as Hh2.
  pose proof (swapped_descs this other db da ca1 cb1 s1) as Hd2.
  set (s2 := swapped this other db da ca1 cb1 s1) in *.
  assert (Hd : descs s2 = descs s).
  { rewrite Hd2, Hd1. apply map_eq. intros i. rewrite ?lookup_insert.
    repeat case_decide; congruence. }
  exists s1, s2. split; [done|]. split; [done|]. split; [done|].
  split; [done|]. split; [congruence|]. split; [congruence|].
  split.
  { apply (answers_by_payload this this da); [by rewrite Hd|done|congruence]. }
  split.
  { apply (answers_by_payload other other db); [by rewrite Hd|done|congruence]. }
  split; [congruence|]. split; congruence.
Qed.

(** ** [target] across a move *)

(** X12. Move construction from a wrapper of a well-formed state that holds
    a [T] does not relocate a boxed object: [target<T>] on the new wrapper
    is the pointer [target<T>] gave on the source. For an inline [T] it is
    the cell of the new wrapper. Either way it points to an object of the
    value the source held. *)
Theorem move_keeps_boxed_address (this other : loc) (T : tyid) (s : state) :
  wf s → this ∉ dom (descs s) → descs s !! other = Some (get_descriptor T) →
  ∃ s' q q' v,
    target T other s = Ret q s
    ∧ function_move this other s = Ret () s'
    ∧ target T this s' = Ret q' s'
    ∧ target T other s' = Ret nullptr s'
    ∧ (fits_small T = false → q' = q)
    ∧ (fits_small T = true → q = to_storage other ∧ q' = to_storage this)
    ∧ live_at T q s = Some v
    ∧ live_at T q' s' = Some v.
Proof.
  intros Hwf Hthis Hd.
  destruct (function_move_ok this other _ s Hwf Hthis Hd)
    as (c & Hc & Hrun & _).
  assert (this ≠ other) as Hne.
  { intros ->. apply Hthis. by eapply elem_of_dom_2. }
  pose proof (wf_holds s Hwf _ _ Hd) as Hh.
  set (s' := upd_descs _ _) in *.
  assert (Hdt : descs s' !! this = Some (get_descriptor T)).
  { unfold s'. rewrite descs_upd_descs, lookup_insert_ne by done.
    simpl. apply lookup_insert_eq. }
  assert (Hdo : descs s' !! other = Some get_empty_func_descriptor).
  { unfold s'. rewrite descs_upd_descs. apply lookup_insert_eq. }
  assert (Hct : cells s' !! this = Some c).
  { unfold s'. simpl. apply lookup_insert_eq. }
  assert (Hnull : target T other s' = Ret nullptr s')
    by (by eapply target_other_type).
  pose proof (target_same_type T other c s Hd Hc) as Hto.
  pose proof (target_same_type T this c s' Hdt Hct) as Htt.
  simpl in Hh. destruct (fits_small T) eqn:Hs.
  - destruct Hh as [v Hv]. assert (c = Obj T v) as -> by congruence.
    exists s', (to_storage other), (to_storage this), v.
    repeat split; try done; by apply live_at_storage.
  - destruct Hh as (p & v & Hp & Hv).
    assert (c = Ptr (to_heap p)) as -> by congruence.
    exists s', (to_heap p), (to_heap p), v.
    repeat split; try done; by apply live_at_heap.
Qed.

(** ** Programs *)

(** X13. Every sequence of statements that a compiler accepts, on wrappers
    whose types are boxed or relocatable, runs from a well-formed state
    without throwing and without undefined behaviour to a well-formed
    state; the wrappers alive then are those the statements leave in scope,
    and with none alive no block is, and allocations equal releases. *)
Theorem storable_programs_run (ops : list op) (s : state) :
  wf s → scoped storable (dom (descs s)) ops →
  ∃ s', run ops s = Ret () s'
        ∧ wf s'
        ∧ dom (descs s')
          = foldl (fun live o => live_after o live) (dom (descs s)) ops
        ∧ (descs s' = ∅ → heap s' = ∅ ∧ allocs s' = frees s').
Proof.
  revert s. induction ops as [|o ops IH]; intros s Hwf Hsc.
  - exists s. split; [done|]. split; [done|]. split; [done|].
    by apply wf_no_leak.
  - destruct Hsc as [Ho Hsc].
    destruct (exec_wf o s Hwf Ho) as (s1 & Hrun & Hwf1 & Hdom).
    rewrite <- Hdom in Hsc.
    destruct (IH s1 Hwf1 Hsc) as (s' & Hrun' & Hwf' & Hdom' & Hleak).
    exists s'. split; [simpl; by rewrite (bind_Ret _ _ _ _ _ Hrun)|].
    split; [done|]. split; [|done]. simpl. by rewrite <- Hdom.
Qed.

(** ** Assignment and inline objects with a destructor *)

(** What a table's [move] into another cell can do to a state in which the
    source holds what the table expects: nothing defined, or a change of
    the target cell only. *)
Lemma move_changes_target_only d src dst c0 s :
  holds s src d → cells s !! dst = Some c0 → src ≠ dst →
  move (pointee d) src dst s = Undefined
  ∨ ∃ c, move (pointee d) src dst s = Ret () (upd_cells <[dst := c]> s).
Proof.
  intros Hh Hdst Hne. destruct d as [|T].
  - right. exists c0. simpl. unfold ret. f_equal. destruct s. simpl in *.
    unfold upd_cells. simpl. f_equal. symmetry. by apply insert_id.
  - simpl in Hh. destruct (fits_small T) eqn:Hs.
    + destruct Hh as [v Hv].
      change (pointee (get_descriptor T)) with (descriptor T).
      rewrite (move_inline_spec T src dst v c0 s Hs Hv Hdst Hne).
      destruct (_ && _); eauto.
    + destruct Hh as (p & v & Hc & _). right. eexists. simpl. rewrite Hs.
      rewrite (bind_Ret _ _ _ _ _ (load_Some _ _ _ Hc)).
      by rewrite (store_Some _ _ _ _ Hdst).
Qed.

(** X14. When [rhs] holds an inline object whose destructor is not trivial,
    move assignment from [rhs] to another wrapper has no defined behaviour,
    and neither has copy assignment from [rhs] to another live wrapper,
    whatever that one holds: both go through [swap]. *)
Theorem assignment_from_inline_guarded_undefined (this rhs : loc) (T : tyid)
    (s : state) :
  fits_small T = true → is_trivially_destructible (types T) = false →
  descs s !! rhs = Some (get_descriptor T) →
  holds s rhs (get_descriptor T) → this ≠ rhs →
  assign_move this rhs s = Undefined
  ∧ ∀ da, descs s !! this = Some da → holds s this da →
          assign_copy this rhs s = Undefined.
Proof.
  intros Hs Hde Hd Hh Hne. split.
  - unfold assign_move. rewrite bool_decide_true by done.
    apply bind_Undefined. by eapply swap_inline_undefined.
  - intros da Hda Hha. unfold assign_copy. rewrite bool_decide_true by done.
    pose proof (fresh_loc_None s) as Ht.
    step reflexivity. cbv beta. set (t := fresh (dom (cells s))) in *.
    destruct (holds_cell s this da Hha) as [ca Hca].
    destruct (holds_cell s rhs _ Hh) as [cb Hcb].
    assert (t ≠ this) as Htt by congruence.
    assert (t ≠ rhs) as Htr by congruence.
    step (by apply function_copy_spec).
    apply bind_Undefined.
    pose proof Hh as Hv. simpl in Hv. rewrite Hs in Hv. destruct Hv as [v Hv].
    rewrite (payload_inline T rhs v s Hs Hv). unfold install. rewrite Hs.
    set (s1 := upd_cells <[t := Obj T v]> _).
    assert (Hct1 : cells s1 !! t = Some (Obj T v))
      by (unfold s1; simpl; apply lookup_insert_eq).
    assert (Hch1 : cells s1 !! this = Some ca)
      by (unfold s1; simpl; by rewrite !lookup_insert_ne).
    assert (Hdt1 : descs s1 !! t = Some (get_descriptor T))
      by (unfold s1; simpl; apply lookup_insert_eq).
    assert (Hdh1 : descs s1 !! this = Some da)
      by (unfold s1; simpl; by rewrite lookup_insert_ne).
    assert (Hhh1 : holds s1 this da).
    { apply (holds_agree s); [by rewrite Hch1|done|done]. }
    pose proof (fresh_loc_None s1) as Htmp.
    unfold swap. step reflexivity. cbv beta.
    set (tmp := fresh (dom (cells s1))) in *.
    assert (tmp ≠ t) as Hmt by congruence.
    assert (tmp ≠ this) as Hmh by congruence.
    step reflexivity.
    set (s2 := upd_cells <[tmp := Indeterminate]> s1).
    assert (Hhh2 : holds s2 this da).
    { apply (holds_agree s1); [|done|done]. unfold s2. simpl.
      by rewrite lookup_insert_ne. }
    destruct (move_changes_target_only da this tmp Indeterminate s2 Hhh2)
      as [Hun|[c Hret]]; [unfold s2; simpl; apply lookup_insert_eq|done| |].
    + apply bind_Undefined.
      by rewrite (bind_Ret _ _ _ _ _ (get_desc_Some this da s2 Hdh1)).
    + step (by rewrite (bind_Ret _ _ _ _ _ (get_desc_Some this da s2 Hdh1))).
      apply bind_Undefined.
      step (by apply get_desc_Some).
      change (pointee (get_descriptor T)) with (descriptor T).
      rewrite (move_inline_spec T t this v ca); try done.
      * by rewrite Hde, andb_false_r.
      * rewrite cells_upd_cells, lookup_insert_ne by done. unfold s2.
        by rewrite cells_upd_cells, lookup_insert_ne.
      * rewrite cells_upd_cells, lookup_insert_ne by done. unfold s2.
        by rewrite cells_upd_cells, lookup_insert_ne.
Qed.

End function.

(** * The sample types *)

(** The sample states are what binding gives before any other object
    exists; types 0 and 1 are stored inline, type 2 boxed. *)
Lemma sample_states :
  function_from 8 8 sample_types 1 0 5%Z no_objects = Ret () one_plain
  ∧ function_from 8 8 sample_types 1 1 7%Z no_objects = Ret () one_guarded
  ∧ function_from 8 8 sample_types 1 2 10%Z no_objects = Ret () one_boxed
  ∧ fits_small 8 8 sample_types 0 = true
  ∧ fits_small 8 8 sample_types 1 = true
  ∧ fits_small 8 8 sample_types 2 = false.
Proof. vm_compute. by repeat split. Qed.

Lemma wf_one_boxed : wf 8 8 sample_types one_boxed.
Proof.
  assert (Heq : one_boxed =
                install 8 8 sample_types 1 (Some (2, 10%Z))
                  (upd_descs <[1 := get_descriptor 2]>
                     (upd_cells <[1 := Indeterminate]> no_objects)))
    by (vm_compute; reflexivity).
  rewrite Heq. apply function_from_ok; [apply wf_no_objects|done|].
  by apply boxed_storable.
Qed.

(** C6. A wrapper bound to a one-byte function object with a user-provided
    destructor holds it inline. The [move] of its table into an
    uninitialised cell assigns to an object that was never constructed and
    runs the destructor on the address read from the source cell, which
    holds no pointer: it has no defined behaviour. For the one-byte function
    object with implicit special members the same [move] returns, and the
    object in the source cell has not been destroyed. *)
Theorem move_inline_assigns_and_destroys_elsewhere :
  cells one_guarded !! 1 = Some (Obj 1 7%Z)
  ∧ move (descriptor 8 8 sample_types 1) 1 2
      (upd_cells <[2 := Indeterminate]> one_guarded) = Undefined
  ∧ move (descriptor 8 8 sample_types 0) 1 2
      (upd_cells <[2 := Indeterminate]> one_plain)
    = Ret () (upd_cells <[2 := Obj 0 5%Z]> one_plain)
  ∧ live_at 0 (to_storage 1) (upd_cells <[2 := Obj 0 5%Z]> one_plain)
    = Some 5%Z.
Proof. vm_compute. by repeat split. Qed.

(** C4. Move construction from the wrapper bound to the one-byte function
    object with a user-provided destructor has no defined behaviour. *)
Theorem move_construct_inline_guarded_undefined :
  run 8 8 sample_types [Bind 1 1 7%Z; Move 2 1] no_objects = Undefined
  ∧ function_move 8 8 sample_types 2 1 one_guarded = Undefined.
Proof. vm_compute. by split. Qed.

(** C2. [swap] has no defined behaviour when one of the two wrappers holds
    the one-byte function object with a user-provided destructor, whatever
    the other holds: the same, a boxed object, or nothing. *)
Theorem swap_inline_guarded_undefined :
  run 8 8 sample_types [Bind 1 1 7%Z; Bind 2 1 8%Z; Swap 1 2] no_objects
    = Undefined
  ∧ run 8 8 sample_types [Bind 1 1 7%Z; Bind 2 2 10%Z; Swap 1 2] no_objects
    = Undefined
  ∧ run 8 8 sample_types [Bind 1 1 7%Z; Default 2; Swap 1 2] no_objects
    = Undefined
  ∧ run 8 8 sample_types [Bind 1 1 7%Z; Default 2; Swap 2 1] no_objects
    = Undefined.
Proof. vm_compute. by repeat split. Qed.

(** ** The theorems at the sample types *)

Lemma empty_wrapper_call_throws_witness :
  ∃ s', function_move 8 8 sample_types 2 1 one_boxed = Ret () s'
        ∧ operator_call 8 8 sample_types 1 3%Z s' = Throw_bad_function_call s'.
Proof.
  eexists. split; [vm_compute; reflexivity|].
  apply (proj1 (proj2 (proj2 (proj2
           (empty_wrapper_call_throws 8 8 sample_types)))) 2 1 3%Z one_boxed).
  vm_compute. reflexivity.
Defined.

Lemma target_of_empty_is_null_witness :
  ∃ s', function_move 8 8 sample_types 2 1 one_boxed = Ret () s'
        ∧ target 8 8 sample_types 2 1 s' = Ret nullptr s'.
Proof.
  eexists. split; [vm_compute; reflexivity|].
  apply (proj1 (proj2 (proj2 (proj2 (proj2
           (target_of_empty_is_null 8 8 sample_types 2))))) 2 1 one_boxed).
  vm_compute. reflexivity.
Defined.

Lemma construct_inline_iff_fits_small_witness :
  fits_small 8 8 sample_types 2 = false
  ∧ ∃ s' p, function_from 8 8 sample_types 1 2 10%Z no_objects = Ret () s'
            ∧ cells s' !! 1 = Some (Ptr (to_heap p))
            ∧ allocs s' = 1.
Proof.
  split; [vm_compute; reflexivity|].
  destruct (proj2 (construct_inline_iff_fits_small 8 8 sample_types 2)
              1 10%Z no_objects) as (s' & Hrun & _ & _ & _ & Hboxed).
  destruct Hboxed as (p & _ & Hc & _ & Ha & _); [vm_compute; reflexivity|].
  exists s', p. split; [exact Hrun|]. split; [exact Hc|exact Ha].
Defined.

Lemma target_exact_type_witness :
  descs one_boxed !! 1 = Some (get_descriptor 2)
  ∧ holds 8 8 sample_types one_boxed 1 (get_descriptor 2)
  ∧ ∃ q, target 8 8 sample_types 2 1 one_boxed = Ret q one_boxed
         ∧ q ≠ nullptr.
Proof.
  assert (Hd : descs one_boxed !! 1 = Some (get_descriptor 2))
    by (vm_compute; reflexivity).
  assert (Hh : holds 8 8 sample_types one_boxed 1 (get_descriptor 2)).
  { exists 0, 10%Z. split; vm_compute; reflexivity. }
  split; [exact Hd|]. split; [exact Hh|].
  destruct (proj1 (target_exact_type 8 8 sample_types 2 1) _ _ Hd Hh)
    as (q & Hq & Hnull & _).
  exists q. split; [exact Hq|]. apply Hnull. reflexivity.
Defined.



Lemma copy_is_independent_witness :
  descs one_boxed !! 1 = Some (get_descriptor 2)
  ∧ holds 8 8 sample_types one_boxed 1 (get_descriptor 2)
  ∧ 2 ≠ 1
  ∧ ∃ s' q_this q_other,
      function_copy 8 8 sample_types 2 1 one_boxed = Ret () s'
      ∧ target 8 8 sample_types 2 2 s' = Ret q_this s'
      ∧ target 8 8 sample_types 2 1 s' = Ret q_other s'
      ∧ q_this ≠ q_other.
Proof.
  assert (Hd : descs one_boxed !! 1 = Some (get_descriptor 2))
    by (vm_compute; reflexivity).
  assert (Hh : holds 8 8 sample_types one_boxed 1 (get_descriptor 2)).
  { exists 0, 10%Z. split; vm_compute; reflexivity. }
  assert (Hne : 2 ≠ 1) by discriminate.
  split; [exact Hd|]. split; [exact Hh|]. split; [exact Hne|].
  destruct (copy_is_independent 8 8 sample_types 2 2 1 one_boxed Hd Hh Hne)
    as (s' & v & q1 & q2 & Hrun & _ & _ & _ & _ & _ & _ & Ht & Ho & Hq & _).
  exists s', q1, q2. split; [exact Hrun|]. split; [exact Ht|].
  split; [exact Ho|exact Hq].
Defined.

(** ** Two scenarios *)

(** A wrapper bound to the one-byte function object with implicit special
    members is bound and answers calls; after move construction from it the
    new wrapper answers the same, the source is not bound, and nothing was
    allocated. *)
Example scenario_inline :
  ∃ s1 s2,
    run 8 8 sample_types [Bind 1 0 5%Z] no_objects = Ret () s1
    ∧ operator_bool 1 s1 = Ret true s1
    ∧ operator_call 8 8 sample_types 1 3%Z s1 = Ret 8%Z s1
    ∧ target 8 8 sample_types 0 1 s1 = Ret (to_storage 1) s1
    ∧ run 8 8 sample_types [Move 2 1] s1 = Ret () s2
    ∧ operator_bool 1 s2 = Ret false s2
    ∧ operator_call 8 8 sample_types 2 3%Z s2 = Ret 8%Z s2
    ∧ allocs s2 = 0.
Proof. eexists _, _. vm_compute. by repeat split. Qed.

(** A wrapper bound to the object with three captured integers allocates
    once, answers by its captures, and releases once when destroyed. A type
    exactly one word wide, or with a move assignment that may throw, is
    boxed as well. *)
Example scenario_boxed :
  ∃ s1 s2,
    run 8 8 sample_types [Bind 1 2 10%Z] no_objects = Ret () s1
    ∧ allocs s1 = 1 ∧ frees s1 = 0
    ∧ operator_call 8 8 sample_types 1 5%Z s1 = Ret 15%Z s1
    ∧ run 8 8 sample_types [Destroy 1] s1 = Ret () s2
    ∧ allocs s2 = 1 ∧ frees s2 = 1 ∧ heap s2 = ∅
    ∧ fits_small 8 8 sample_types 3 = false
    ∧ fits_small 8 8 sample_types 4 = false.
Proof. eexists _, _. vm_compute. by repeat split. Qed.

(** A wrapper bound to the counter answers two calls in a row from the
    count, which the object in the cell keeps. A wrapper bound to the
    function object that forwards to an empty wrapper converts to true; a
    call of it with argument 0 throws [bad_function_call], with a negative
    argument an exception of the function object, and with a positive one
    it returns the sum, which the object in the block keeps. *)
Example scenario_stateful :
  ∃ s1 s2 s3 s4 s5,
    run 8 8 sample_types [Bind 1 5 0%Z; Bind 2 6 10%Z] no_objects = Ret () s1
    ∧ operator_call 8 8 sample_types 1 3%Z s1 = Ret 3%Z s2
    ∧ operator_call 8 8 sample_types 1 3%Z s2 = Ret 4%Z s3
    ∧ cells s3 !! 1 = Some (Obj 5 2%Z)
    ∧ operator_bool 2 s3 = Ret true s3
    ∧ operator_call 8 8 sample_types 2 0%Z s3 = Throw_bad_function_call s3
    ∧ operator_call 8 8 sample_types 2 (-1)%Z s3
      = Throw (thrown_by_callable 1) s3
    ∧ operator_call 8 8 sample_types 2 5%Z s3 = Ret 15%Z s4
    ∧ operator_call 8 8 sample_types 2 5%Z s4 = Ret 20%Z s5
    ∧ heap s5 !! 0 = Some (Obj 6 20%Z)
    ∧ allocs s5 = 1 ∧ frees s5 = 0.
Proof. eexists _, _, _, _, _. vm_compute. by repeat split. Qed.

(** ** The further properties at the sample types *)

Lemma sample_states_more :
  function_default 1 (no_objects (value := Z)) = Ret () one_empty
  ∧ run 8 8 sample_types [Bind 1 2 10%Z; Bind 2 0 5%Z] no_objects
    = Ret () two_wrappers.
Proof. vm_compute. by split. Qed.

Lemma wf_two_wrappers : wf 8 8 sample_types two_wrappers.
Proof.
  destruct (run_wf 8 8 sample_types [Bind 1 2 10%Z; Bind 2 0 5%Z] no_objects
              (wf_no_objects 8 8 sample_types)) as (s & Hrun & Hwf).
  - simpl. rewrite dom_empty_L. repeat split;
      try (by (eapply (bool_decide_unpack _); vm_compute));
      intros _; by split.
  - rewrite (proj2 sample_states_more) in Hrun. by injection Hrun as <-.
Qed.

Lemma two_wrappers_descs :
  descs two_wrappers !! 1 = Some (get_descriptor 2)
  ∧ descs two_wrappers !! 2 = Some (get_descriptor 0).
Proof. vm_compute. by split. Qed.

Lemma one_boxed_holds : holds 8 8 sample_types one_boxed 1 (get_descriptor 2).
Proof. exists 0, 10%Z. split; vm_compute; reflexivity. Qed.

Lemma bool_tells_whether_call_throws_witness :
  descs one_empty !! 1 = Some get_empty_func_descriptor
  ∧ ∀ args, operator_call 8 8 sample_types 1 args one_empty
            = Throw_bad_function_call one_empty.
Proof.
  assert (Hd : descs one_empty !! 1 = Some get_empty_func_descriptor)
    by (vm_compute; reflexivity).
  split; [exact Hd|].
  destruct (bool_tells_whether_call_throws 8 8 sample_types 1 _ one_empty Hd)
    as (b & _ & Hb & Hthrows & _).
  apply Hthrows. apply Hb. reflexivity.
Defined.

Lemma construct_then_destroy_restores_witness :
  cells one_boxed !! 2 = None ∧ descs one_boxed !! 2 = None
  ∧ ∃ s1 s2,
      function_from 8 8 sample_types 2 2 4%Z one_boxed = Ret () s1
      ∧ function_destroy 8 8 sample_types 2 s1 = Ret () s2
      ∧ heap s2 = heap one_boxed ∧ allocs s2 = 2 ∧ frees s2 = 1.
Proof.
  assert (Hc : cells one_boxed !! 2 = None) by (vm_compute; reflexivity).
  assert (Hd : descs one_boxed !! 2 = None) by (vm_compute; reflexivity).
  split; [exact Hc|]. split; [exact Hd|].
  destruct (construct_then_destroy_restores 8 8 sample_types 2 2 4%Z
              one_boxed Hc Hd)
    as (s1 & s2 & H1 & H2 & _ & _ & Hh & Ha & Hf).
  exists s1, s2. split; [exact H1|]. split; [exact H2|].
  split; [exact Hh|]. split; [exact Ha|exact Hf].
Defined.

Lemma destructor_releases_what_it_holds_witness :
  descs one_boxed !! 1 = Some (get_descriptor 2)
  ∧ holds 8 8 sample_types one_boxed 1 (get_descriptor 2)
  ∧ ∃ s', function_destroy 8 8 sample_types 1 one_boxed = Ret () s'
          ∧ allocs s' = 1 ∧ frees s' = 1.
Proof.
  assert (Hd : descs one_boxed !! 1 = Some (get_descriptor 2))
    by (vm_compute; reflexivity).
  split; [exact Hd|]. split; [exact one_boxed_holds|].
  destruct (destructor_releases_what_it_holds 8 8 sample_types 1 _ one_boxed
              Hd one_boxed_holds) as (s' & Hrun & _ & _ & Ha & Hf & _).
  exists s'. split; [exact Hrun|]. split; [exact Ha|exact Hf].
Defined.

Lemma construct_from_empty_is_default_witness :
  descs one_empty !! 1 = Some get_empty_func_descriptor
  ∧ function_move 8 8 sample_types 2 1 one_empty = function_default 2 one_empty.
Proof.
  assert (Hd : descs one_empty !! 1 = Some get_empty_func_descriptor)
    by (vm_compute; reflexivity).
  split; [exact Hd|].
  exact (proj2 (construct_from_empty_is_default 8 8 sample_types 2 1
                  one_empty Hd)).
Defined.

Lemma copy_assignment_copies_witness :
  wf 8 8 sample_types two_wrappers ∧ 2 ≠ 1
  ∧ ∃ s', assign_copy 8 8 sample_types 2 1 two_wrappers = Ret () s'
          ∧ allocs s' = 2 ∧ frees s' = 0.
Proof.
  assert (Hne : 2 ≠ 1) by discriminate.
  split; [exact wf_two_wrappers|]. split; [exact Hne|].
  destruct (copy_assignment_copies 8 8 sample_types 2 1 _ _ two_wrappers
              wf_two_wrappers (proj2 two_wrappers_descs)
              (proj1 two_wrappers_descs) Hne)
    as (s' & Hrun & _ & _ & _ & _ & _ & _ & Ha & Hf).
  exists s'. split; [exact Hrun|]. split; [exact Ha|exact Hf].
Defined.

Lemma move_assignment_moves_witness :
  wf 8 8 sample_types two_wrappers ∧ 2 ≠ 1
  ∧ ∃ s', assign_move 8 8 sample_types 2 1 two_wrappers = Ret () s'
          ∧ operator_bool 1 s' = Ret false s'
          ∧ allocs s' = 1 ∧ frees s' = 0.
Proof.
  assert (Hne : 2 ≠ 1) by discriminate.
  split; [exact wf_two_wrappers|]. split; [exact Hne|].
  destruct (move_assignment_moves 8 8 sample_types 2 1 _ _ two_wrappers
              wf_two_wrappers (proj2 two_wrappers_descs)
              (proj1 two_wrappers_descs) Hne)
    as (s' & Hrun & _ & _ & _ & _ & Hb & Ha & Hf).
  exists s'. split; [exact Hrun|]. split; [exact Hb|].
  split; [exact Ha|exact Hf].
Defined.

Lemma self_swap_is_identity_witness :
  descs one_boxed !! 1 = Some (get_descriptor 2)
  ∧ holds 8 8 sample_types one_boxed 1 (get_descriptor 2)
  ∧ swap 8 8 sample_types 1 1 one_boxed = Ret () one_boxed.
Proof.
  assert (Hd : descs one_boxed !! 1 = Some (get_descriptor 2))
    by (vm_compute; reflexivity).
  split; [exact Hd|]. split; [exact one_boxed_holds|].
  apply (self_swap_is_identity 8 8 sample_types 1 _ one_boxed Hd
           one_boxed_holds).
  intros Hs. vm_compute in Hs. discriminate Hs.
Defined.

Lemma swap_is_symmetric_witness :
  wf 8 8 sample_types two_wrappers
  ∧ ∃ s', swap 8 8 sample_types 1 2 two_wrappers = Ret () s'
          ∧ swap 8 8 sample_types 2 1 two_wrappers = Ret () s'.
Proof.
  split; [exact wf_two_wrappers|].
  exact (swap_is_symmetric 8 8 sample_types 1 2 _ _ two_wrappers
           wf_two_wrappers (proj1 two_wrappers_descs)
           (proj2 two_wrappers_descs)).
Defined.

Lemma swap_twice_restores_witness :
  wf 8 8 sample_types two_wrappers ∧ 1 ≠ 2
  ∧ ∃ s1 s2, swap 8 8 sample_types 1 2 two_wrappers = Ret () s1
             ∧ swap 8 8 sample_types 1 2 s1 = Ret () s2
             ∧ descs s2 = descs two_wrappers
             ∧ heap s2 = heap two_wrappers.
Proof.
  assert (Hne : 1 ≠ 2) by discriminate.
  split; [exact wf_two_wrappers|]. split; [exact Hne|].
  destruct (swap_twice_restores 8 8 sample_types 1 2 _ _ two_wrappers
              wf_two_wrappers (proj1 two_wrappers_descs)
              (proj2 two_wrappers_descs) Hne)
    as (s1 & s2 & H1 & H2 & _ & Hd & _ & _ & _ & _ & Hh & _).
  exists s1, s2. split; [exact H1|]. split; [exact H2|].
  split; [exact Hd|exact Hh].
Defined.

Lemma swap_exchanges_witness :
  wf 8 8 sample_types two_wrappers ∧ 1 ≠ 2
  ∧ ∃ s', swap 8 8 sample_types 1 2 two_wrappers = Ret () s'
          ∧ descs s' !! 1 = Some (get_descriptor 0)
          ∧ descs s' !! 2 = Some (get_descriptor 2)
          ∧ heap s' = heap two_wrappers.
Proof.
  assert (Hne : 1 ≠ 2) by discriminate.
  split; [exact wf_two_wrappers|]. split; [exact Hne|].
  destruct (swap_exchanges 8 8 sample_types 1 2 _ _ two_wrappers
              wf_two_wrappers (proj1 two_wrappers_descs)
              (proj2 two_wrappers_descs) Hne)
    as (s' & Hrun & _ & Hd1 & Hd2 & _ & _ & _ & Hh & _).
  exists s'. split; [exact Hrun|]. split; [exact Hd1|].
  split; [exact Hd2|exact Hh].
Defined.

Lemma function_move_transfers_witness :
  wf 8 8 sample_types two_wrappers ∧ (3 ∉ dom (descs two_wrappers))
  ∧ ∃ s', function_move 8 8 sample_types 3 2 two_wrappers = Ret () s'
          ∧ operator_bool 2 s' = Ret false s'
          ∧ descs s' !! 3 = Some (get_descriptor 0).
Proof.
  assert (H3 : 3 ∉ dom (descs two_wrappers))
    by (by (eapply (bool_decide_unpack _); vm_compute)).
  split; [exact wf_two_wrappers|]. split; [exact H3|].
  destruct (function_move_transfers 8 8 sample_types 3 2 _ two_wrappers
              wf_two_wrappers H3 (proj2 two_wrappers_descs))
    as (s' & Hrun & _ & Hd & _ & _ & _ & Hb & _).
  exists s'. split; [exact Hrun|]. split; [exact Hb|exact Hd].
Defined.


Lemma move_keeps_boxed_address_witness :
  wf 8 8 sample_types two_wrappers ∧ (3 ∉ dom (descs two_wrappers))
  ∧ ∃ s' q, target 8 8 sample_types 2 1 two_wrappers = Ret q two_wrappers
            ∧ function_move 8 8 sample_types 3 1 two_wrappers = Ret () s'
            ∧ target 8 8 sample_types 2 3 s' = Ret q s'.
Proof.
  assert (H3 : 3 ∉ dom (descs two_wrappers))
    by (by (eapply (bool_decide_unpack _); vm_compute)).
  split; [exact wf_two_wrappers|]. split; [exact H3|].
  destruct (move_keeps_boxed_address 8 8 sample_types 3 1 2 two_wrappers
              wf_two_wrappers H3 (proj1 two_wrappers_descs))
    as (s' & q & q' & v & Ht & Hrun & Ht' & _ & Hsame & _).
  rewrite Hsame in Ht' by (vm_compute; reflexivity).
  exists s', q. split; [exact Ht|]. split; [exact Hrun|exact Ht'].
Defined.

Lemma storable_programs_run_witness :
  scoped (storable 8 8 sample_types) (dom (descs (no_objects (value := Z))))
    [Bind 1 2 10%Z; Bind 2 0 5%Z; Swap 1 2; Move 3 2; Assign 2 1;
     AssignMove 1 3; Default 4; Swap 4 4; Destroy 3; Destroy 1; Destroy 2;
     Destroy 4]
  ∧ ∃ s', run 8 8 sample_types
            [Bind 1 2 10%Z; Bind 2 0 5%Z; Swap 1 2; Move 3 2; Assign 2 1;
             AssignMove 1 3; Default 4; Swap 4 4; Destroy 3; Destroy 1;
             Destroy 2; Destroy 4] no_objects = Ret () s'
          ∧ wf 8 8 sample_types s'.
Proof.
  assert (Hsc : scoped (storable 8 8 sample_types)
                  (dom (descs (no_objects (value := Z))))
                  [Bind 1 2 10%Z; Bind 2 0 5%Z; Swap 1 2; Move 3 2; Assign 2 1;
                   AssignMove 1 3; Default 4; Swap 4 4; Destroy 3; Destroy 1;
                   Destroy 2; Destroy 4]).
  { simpl. rewrite dom_empty_L. repeat split;
      try (by (eapply (bool_decide_unpack _); vm_compute));
      intros Hs; try (by split); vm_compute in Hs; discriminate Hs. }
  split; [exact Hsc|].
  destruct (storable_programs_run 8 8 sample_types _ no_objects
              (wf_no_objects 8 8 sample_types) Hsc) as (s' & Hrun & Hwf & _).
  exists s'. split; [exact Hrun|exact Hwf].
Defined.

Lemma assignment_from_inline_guarded_undefined_witness :
  fits_small 8 8 sample_types 1 = true
  ∧ is_trivially_destructible (sample_types 1) = false
  ∧ descs guarded_and_boxed !! 1 = Some (get_descriptor 1)
  ∧ holds 8 8 sample_types guarded_and_boxed 1 (get_descriptor 1)
  ∧ 2 ≠ 1
  ∧ descs guarded_and_boxed !! 2 = Some (get_descriptor 2)
  ∧ holds 8 8 sample_types guarded_and_boxed 2 (get_descriptor 2)
  ∧ assign_move 8 8 sample_types 2 1 guarded_and_boxed = Undefined
  ∧ assign_copy 8 8 sample_types 2 1 guarded_and_boxed = Undefined.
Proof.
  assert (Hs : fits_small 8 8 sample_types 1 = true) by (vm_compute; reflexivity).
  assert (Hde : is_trivially_destructible (sample_types 1) = false)
    by reflexivity.
  assert (Hd : descs guarded_and_boxed !! 1 = Some (get_descriptor 1))
    by (vm_compute; reflexivity).
  assert (Hh : holds 8 8 sample_types guarded_and_boxed 1 (get_descriptor 1)).
  { exists 7%Z. vm_compute. reflexivity. }
  assert (Hne : 2 ≠ 1) by discriminate.
  assert (Hd2 : descs guarded_and_boxed !! 2 = Some (get_descriptor 2))
    by (vm_compute; reflexivity).
  assert (Hh2 : holds 8 8 sample_types guarded_and_boxed 2 (get_descriptor 2)).
  { exists 0, 10%Z. split; vm_compute; reflexivity. }
  split; [exact Hs|]. split; [exact Hde|]. split; [exact Hd|].
  split; [exact Hh|]. split; [exact Hne|]. split; [exact Hd2|].
  split; [exact Hh2|].
  destruct (assignment_from_inline_guarded_undefined 8 8 sample_types
              2 1 1 guarded_and_boxed Hs Hde Hd Hh Hne) as [Hmove Hcopy].
  split; [exact Hmove|exact (Hcopy _ Hd2 Hh2)].
Defined.
